(** * parse_mdefine: XSPEC [mdefine] lines to ISIS/S-Lang functions

    A shallow embedding of [src/parse_mdefine.py] and the properties of
    its expression transpiler.

    Python [str] values are modelled as [list ascii] (the type [text]);
    the model covers ASCII input, where the regular-expression class
    [\w] is [[A-Za-z0-9_]] and [str.isspace] holds of the codes 9..13,
    28..31 and 32.  Python exceptions are the [Raise] results of the
    [result] type; the module-level list [additive_functions], which
    [interpret_line] mutates, is passed in and handed back. *)

From Stdlib Require Import Ascii String DecimalString.
From Stdlib Require Import List Arith Bool Lia ZArith Sorted Permutation.
Import ListNotations.

(** ** Text *)

Definition text := list ascii.

Definition T (s : string) : text := list_ascii_of_string s.

Definition nl : ascii := ascii_of_nat 10.
Definition dquote : ascii := ascii_of_nat 34.
Definition lparen : ascii := ascii_of_nat 40.
Definition rparen : ascii := ascii_of_nat 41.

Fixpoint text_eqb (a b : text) : bool :=
  match a, b with
  | [], [] => true
  | x :: a', y :: b' => Ascii.eqb x y && text_eqb a' b'
  | _, _ => false
  end.

(** [w in l] on a Python list of strings. *)
Definition mem (w : text) (l : list text) : bool := existsb (text_eqb w) l.

(** ** Character classes *)

Definition between (lo hi : nat) (c : ascii) : bool :=
  let n := nat_of_ascii c in (lo <=? n) && (n <=? hi).

Definition is_digit (c : ascii) : bool := between 48 57 c.

(** [\w] on ASCII text. *)
Definition is_word (c : ascii) : bool :=
  is_digit c || between 65 90 c || between 97 122 c || Ascii.eqb c (ascii_of_nat 95).

(** [str.isspace] on ASCII text. *)
Definition is_space (c : ascii) : bool :=
  between 9 13 c || between 28 32 c.

(** ** Exceptions *)

Inductive exn : Set := IndexError | AttributeError.

(** [OutOfFuel] is not a Python outcome: it marks a loop of the model
    that was given too few iterations (see [call_loop_fuel]). *)
Inductive result (A : Type) : Type :=
| Ok (a : A)
| Raise (e : exn)
| OutOfFuel.

Arguments Ok {A} a.
Arguments Raise {A} e.
Arguments OutOfFuel {A}.

Definition bind {A B : Type} (m : result A) (k : A -> result B) : result B :=
  match m with
  | Ok a => k a
  | Raise e => Raise e
  | OutOfFuel => OutOfFuel
  end.

Notation "x <- m ;; k" := (bind m (fun x => k))
  (at level 61, m at next level, right associativity).

(** ** String primitives of Python used by the source *)

(** Splitting at every character that satisfies [p]; [str.split(sep)]
    for a one-character [sep] and [re.split('\W', s)] are instances.
    The result is never empty and keeps empty pieces. *)
Fixpoint split_by (p : ascii -> bool) (s : text) : list text :=
  match s with
  | [] => [[]]
  | c :: r =>
      if p c then [] :: split_by p r
      else match split_by p r with
           | [] => [[c]]
           | w :: ws => (c :: w) :: ws
           end
  end.

Definition split_on (sep : ascii) (s : text) : list text :=
  split_by (Ascii.eqb sep) s.

(** [re.split('\W', s)] *)
Definition re_split_W (s : text) : list text :=
  split_by (fun c => negb (is_word c)) s.

(** [s.split()]: maximal runs of non-whitespace. *)
Definition split_ws (s : text) : list text :=
  filter (fun w => negb (text_eqb w [])) (split_by is_space s).

(** [sep.join(l)] *)
Fixpoint join (sep : text) (l : list text) : text :=
  match l with
  | [] => []
  | [w] => w
  | w :: ws => w ++ sep ++ join sep ws
  end.

Fixpoint lstrip (s : text) : text :=
  match s with
  | c :: r => if is_space c then lstrip r else s
  | [] => []
  end.

(** [s.strip()] *)
Definition strip (s : text) : text := rev (lstrip (rev (lstrip s))).

(** [l[-1]] of a non-empty list ([split_by] never returns []). *)
Definition last_piece (l : list text) : text := last l [].

(** [str(i)] for a non-negative integer. *)
Definition str_of_nat (i : nat) : text :=
  T (NilEmpty.string_of_uint (Nat.to_uint i)).

(** ** Regular-expression searches *)

Definition wordb (o : option ascii) : bool :=
  match o with Some c => is_word c | None => false end.

(** [\b] between the characters [a] and [b] ([None] is an end of the
    string). *)
Definition boundary (a b : option ascii) : bool := xorb (wordb a) (wordb b).

Fixpoint is_prefix (n s : text) : bool :=
  match n, s with
  | [], _ => true
  | x :: n', y :: s' => Ascii.eqb x y && is_prefix n' s'
  | _ :: _, [] => false
  end.

Definition last_opt (prev : option ascii) (n : text) : option ascii :=
  match rev n with [] => prev | c :: _ => Some c end.

(** Does [\b name \b] match at the head of [s], the character before
    being [prev]? *)
Definition match_here (name : text) (prev : option ascii) (s : text) : bool :=
  is_prefix name s
  && boundary prev (hd_error s)
  && boundary (last_opt prev name) (hd_error (skipn (length name) s)).

Fixpoint search_from (name : text) (prev : option ascii) (s : text) (pos : nat)
  : option (nat * nat) :=
  if match_here name prev s then Some (pos, pos + length name)
  else match s with
       | [] => None
       | c :: r => search_from name (Some c) r (S pos)
       end.

(** [re.search(r'\b'+name+r'\b', s)]: the span [(start, end)] of the
    leftmost match. *)
Definition search_word (name s : text) : option (nat * nat) :=
  search_from name None s 0.

(** [re.search(r'\(', s).end()]; [None] is the [None] of [re.search],
    on which [.end()] raises [AttributeError]. *)
Fixpoint search_paren (s : text) : option nat :=
  match s with
  | [] => None
  | c :: r => if Ascii.eqb c lparen then Some 1
              else option_map S (search_paren r)
  end.

(** [re.sub(r'\b(e|E)\b', repl, s)], scanning left to right; [prev] is
    the character before the head of [s]. *)
Fixpoint sub_energy_from (repl : text) (prev : option ascii) (s : text) : text :=
  match s with
  | [] => []
  | c :: r =>
      if (Ascii.eqb c "e" || Ascii.eqb c "E")%char
         && boundary prev (Some c) && boundary (Some c) (hd_error r)
      then repl ++ sub_energy_from repl (Some c) r
      else c :: sub_energy_from repl (Some c) r
  end.

Definition sub_energy (repl s : text) : text := sub_energy_from repl None s.

(** ** Catalogues (lines 26-32) *)

(** The mathematical functions of [mdefine]; the thirtieth entry is
    written [' max'], with a leading blank, in the source. *)
Definition special_functions : list text := map T [
  "exp"; "sin"; "cos"; "tan"; "sinh"; "cosh"; "tanh"; "sqrt"; "abs";
  "asin"; "acos"; "atan"; "asinh"; "acosh"; "atanh"; "sind"; "cosd";
  "tand"; "heaviside"; "boxcar"; "sign"; "mean"; "atan2"; "erf"; "erfc";
  "log"; "log10"; "gamma"; "min"; " max"; "smin"; "smax"
]%string.

(** The intrinsic XSPEC additive fit functions: the initial value of
    the module-level list that [interpret_line] appends to. *)
Definition additive_functions : list text := map T [
  "agauss"; "c6vmekl"; "eqpair"; "nei"; "rnei"; "vraymond"; "agnsed";
  "carbatm"; "eqtherm"; "nlapec"; "sedov"; "vrnei"; "agnslim"; "cemekl";
  "equil"; "npshock"; "sirf"; "vsedov"; "apec"; "cevmkl"; "expdec"; "nsa";
  "slimbh"; "vtapec"; "bapec"; "cflow"; "ezdiskbb"; "nsagrav"; "smaug";
  "vvapec"; "bbody"; "compLS"; "gadem"; "nsatmos"; "snapec"; "vvgnei";
  "bbodyrad"; "compPS"; "gaussian"; "nsmax"; "srcut"; "vvnei"; "bexrav";
  "compST"; "gnei"; "nsmaxg"; "sresc"; "vvnpshock"; "bexriv"; "compTT";
  "grad"; "nsx"; "ssa"; "vvpshock"; "bkn2pow"; "compbb"; "grbcomp";
  "nteea"; "step"; "vvrnei"; "bknpower"; "compmag"; "grbjet"; "nthComp";
  "tapec"; "vvsedov"; "bmc"; "comptb"; "grbm"; "optxagn"; "vapec";
  "vvtapec"; "bremss"; "compth"; "hatm"; "optxagnf"; "vbremss"; "vvwdem";
  "brnei"; "cph"; "jet"; "pegpwrlw"; "vcph"; "vwdem"; "btapec"; "cplinear";
  "kerrbb"; "pexmon"; "vequil"; "wdem"; "bvapec"; "cutoffpl"; "kerrd";
  "pexrav"; "vgadem"; "zagauss"; "bvrnei"; "disk"; "kerrdisk"; "pexriv";
  "vgnei"; "zbbody"; "bvtapec"; "diskbb"; "kyrline"; "plcabs"; "vmcflow";
  "zbknpower"; "bvvapec"; "diskir"; "laor"; "posm"; "vmeka"; "zbremss";
  "bvvrnei"; "diskline"; "laor2"; "powerlaw"; "vmekal"; "zcutoffpl";
  "bvvtapec"; "diskm"; "logpar"; "pshock"; "vnei"; "zgauss"; "bwcycl";
  "disko"; "lorentz"; "qsosed"; "vnpshock"; "zkerrbb"; "c6mekl"; "diskpbb";
  "meka"; "raymond"; "voigt"; "zlogpar"; "c6pmekl"; "diskpn"; "mekal";
  "redge"; "vpshock"; "zpowerlw"; "c6pvmkl"; "eplogpar"; "mkcflow";
  "refsch"
]%string.

(** ** Bracket matching (lines 80-87 and 132-139)

    [scan_brackets s level i] runs [while bracket_level > 0] with [s]
    the text from index [i] on, and returns the final [i]; reading
    [func_expr[i]] past the end raises [IndexError]. *)
Fixpoint scan_brackets (s : text) (bracket_level i : nat) : result nat :=
  match bracket_level with
  | 0 => Ok i
  | S below =>
      match s with
      | [] => Raise IndexError
      | c :: r =>
          if Ascii.eqb c lparen then scan_brackets r (S bracket_level) (S i)
          else if Ascii.eqb c rparen then scan_brackets r below (S i)
          else scan_brackets r bracket_level (S i)
      end
  end.

(** ** The call rewriting loop (lines 71-93 and 118-146)

    Both passes run the same loop; they differ in the text [opening]
    that replaces the matched name: [name+'(['] in the min/max pass,
    ['eval_fun2(&'+name+',lo,hi, ['] followed by ['1, '] for a
    registered additive function in the sub-function pass.  Each
    iteration shortens [func_expr], so [fuel] bounds the iterations. *)
Fixpoint call_loop (fuel : nat) (name opening new_func_expr func_expr : text)
  : result text :=
  match search_word name func_expr with
  | None => Ok (new_func_expr ++ func_expr)
  | Some (m_start, m_end) =>
      match fuel with
      | 0 => OutOfFuel
      | S fuel' =>
          let new_func_expr := new_func_expr ++ firstn m_start func_expr ++ opening in
          let func_expr := skipn m_end func_expr in
          match search_paren func_expr with
          | None => Raise AttributeError
          | Some p_end =>
              let func_expr := skipn p_end func_expr in
              i <- scan_brackets func_expr 1 0 ;;
              call_loop fuel' name opening new_func_expr
                (firstn (i - 1) func_expr ++ T "])" ++ skipn i func_expr)
          end
      end
  end.

Definition rewrite_calls (name opening func_expr : text) : result text :=
  call_loop (length func_expr) name opening [] func_expr.

(** Lines 66-93: the binary min/max pass. *)
Definition multi_arg_pass (sub_func_name func_expr : text) : result text :=
  rewrite_calls sub_func_name (sub_func_name ++ T "([") func_expr.

Definition multi_arg (func_expr : text) : result text :=
  func_expr <- multi_arg_pass (T "min") func_expr ;;
  multi_arg_pass (T "max") func_expr.

(** ** numpy: [unique] and [argsort] *)

Fixpoint text_leb (a b : text) : bool :=
  match a, b with
  | [], _ => true
  | _ :: _, [] => false
  | x :: a', y :: b' =>
      if nat_of_ascii x <? nat_of_ascii y then true
      else if nat_of_ascii y <? nat_of_ascii x then false
      else text_leb a' b'
  end.

(** numpy sorts; any sort gives the same list for a total order, and
    insertion keeps equal keys in their order (a stable sort). *)
Fixpoint insert_by {A : Type} (leb : A -> A -> bool) (x : A) (l : list A) : list A :=
  match l with
  | [] => [x]
  | y :: r => if leb x y then x :: l else y :: insert_by leb x r
  end.

Definition sort_by {A : Type} (leb : A -> A -> bool) (l : list A) : list A :=
  fold_right (insert_by leb) [] l.

Definition sort_text (l : list text) : list text := sort_by text_leb l.

Fixpoint drop_repeats (l : list text) : list text :=
  match l with
  | [] => []
  | x :: r =>
      match r with
      | [] => [x]
      | y :: _ => if text_eqb x y then drop_repeats r else x :: drop_repeats r
      end
  end.

(** [np.unique(l)]: the sorted distinct values. *)
Definition np_unique (l : list text) : list text := drop_repeats (sort_text l).

Fixpoint index_of (w : text) (l : list text) : nat :=
  match l with
  | [] => 0
  | x :: r => if text_eqb w x then 0 else S (index_of w r)
  end.

(** The second component of [np.unique(l, return_index=True)]: the
    index of the first occurrence of each distinct value. *)
Definition np_unique_index (l : list text) : list nat :=
  map (fun w => index_of w l) (np_unique l).

Definition key_leb (p q : nat * nat) : bool := fst p <=? fst q.

(** [np.argsort(inds)]: the positions of [inds] in increasing order of
    their values. *)
Definition argsort (inds : list nat) : list nat :=
  map snd (sort_by key_leb (combine inds (seq 0 (length inds)))).

(** [list(pars[order])] *)
Definition take_at (pars : list text) (order : list nat) : list text :=
  map (fun i => nth i pars []) order.

(** ** Function names and parameters (lines 98-107) *)

Definition nonempty (w : text) : bool := negb (text_eqb w []).

Definition sub_func_names_of (func_expr : text) : list text :=
  let before_bracket := map (fun piece => last_piece (re_split_W piece))
                            (split_on lparen func_expr) in
  filter nonempty before_bracket.

Definition starts_with_digit (w : text) : bool :=
  match w with c :: _ => is_digit c | [] => false end.

Definition words_of (func_expr : text) : list text :=
  let words := filter nonempty (re_split_W func_expr) in
  filter (fun w => negb (starts_with_digit w)) words.

Definition is_par (sub_func_names : list text) (w : text) : bool :=
  negb (mem w sub_func_names)
  && negb (text_eqb w (T "e")) && negb (text_eqb w (T "E")).

Definition extract_pars (sub_func_names : list text) (func_expr : text) : list text :=
  let kept := filter (is_par sub_func_names) (words_of func_expr) in
  let pars := np_unique kept in
  let inds := np_unique_index kept in
  take_at pars (argsort inds).

(** The spec's words for lines 105-107: the distinct tokens, each at
    the place of its first occurrence. *)
Fixpoint first_occurrences (l : list text) : list text :=
  match l with
  | [] => []
  | w :: r => w :: filter (fun x => negb (text_eqb x w)) (first_occurrences r)
  end.

(** ** Sub-function wrapping (lines 112-146) *)

Definition eval_opening (additive : list text) (sub_func_name : text) : text :=
  T "eval_fun2(&" ++ sub_func_name ++ T ",lo,hi, ["
  ++ (if mem sub_func_name additive then T "1, " else []).

Definition wrap_pass (additive : list text) (sub_func_name func_expr : text)
  : result text :=
  if mem sub_func_name special_functions then Ok func_expr
  else rewrite_calls sub_func_name (eval_opening additive sub_func_name) func_expr.

Fixpoint wrap_all (additive : list text) (names : list text) (func_expr : text)
  : result text :=
  match names with
  | [] => Ok func_expr
  | sub_func_name :: rest =>
      func_expr <- wrap_pass additive sub_func_name func_expr ;;
      wrap_all additive rest func_expr
  end.

Definition wrap_subfunctions (additive : list text) (sub_func_names : list text)
  (func_expr : text) : result text :=
  wrap_all additive (np_unique sub_func_names) func_expr.

(** ** The substitutions of lines 57-61 and 95-96

    [re.sub] returns the new string; the source calls it on
    [func_expr] and drops the value, so these functions give the value
    that is computed and [rewrite_expr] below binds it to nothing. *)

Fixpoint count_spaces (s : text) : nat :=
  match s with
  | c :: r => if is_space c then S (count_spaces r) else 0
  | [] => 0
  end.

(** Length of a match of [\b name \b \s* \(] at the head of [s]. *)
Definition call_match (name : text) (prev : option ascii) (s : text) : option nat :=
  if match_here name prev s then
    let rest := skipn (length name) s in
    let k := count_spaces rest in
    match skipn k rest with
    | c :: _ => if Ascii.eqb c lparen then Some (length name + k + 1) else None
    | [] => None
    end
  else None.

Fixpoint sub_call_from (name repl : text) (prev : option ascii) (s : text)
  (skip : nat) : text :=
  match s with
  | [] => []
  | c :: r =>
      match skip with
      | S k => sub_call_from name repl (Some c) r k
      | 0 =>
          match call_match name prev s with
          | Some len => repl ++ sub_call_from name repl (Some c) r (len - 1)
          | None => c :: sub_call_from name repl (Some c) r 0
          end
      end
  end.

(** [re.sub(r'\b'+name+r'\b\s*\(', repl, s)] *)
Definition sub_call (name repl s : text) : text :=
  sub_call_from name repl None s 0.

(** Length of a match of [\*\s*\*] at the head of [s]. *)
Definition power_match (s : text) : option nat :=
  match s with
  | c :: rest =>
      if Ascii.eqb c "*"%char then
        let k := count_spaces rest in
        match skipn k rest with
        | d :: _ => if Ascii.eqb d "*"%char then Some (k + 2) else None
        | [] => None
        end
      else None
  | [] => None
  end.

Fixpoint sub_power_from (s : text) (skip : nat) : text :=
  match s with
  | [] => []
  | c :: r =>
      match skip with
      | S k => sub_power_from r k
      | 0 =>
          match power_match s with
          | Some len => "^"%char :: sub_power_from r (len - 1)
          | None => c :: sub_power_from r 0
          end
      end
  end.

(** [re.sub(r'\*\s*\*', '^', s)] *)
Definition sub_power (s : text) : text := sub_power_from s 0.

(** ** The expression pipeline (lines 54-153) *)

Definition energy_expr : text := T "(6.19920995*(lo+hi)/lo/hi)".

(** Returns the rewritten [func_expr] and [pars] as they stand after
    line 153. *)
Definition rewrite_expr (additive : list text) (func_expr : text)
  : result (text * list text) :=
  let _ := sub_power func_expr in
  let _ := sub_call (T "log") (T "log10(") func_expr in
  let _ := sub_call (T "ln") (T "log(") func_expr in
  func_expr <- multi_arg func_expr ;;
  let _ := sub_call (T "smin") (T "min(") func_expr in
  let _ := sub_call (T "smax") (T "max(") func_expr in
  let sub_func_names := sub_func_names_of func_expr in
  let pars := extract_pars sub_func_names func_expr in
  func_expr <- wrap_subfunctions additive sub_func_names func_expr ;;
  let func_expr := sub_energy energy_expr func_expr in
  Ok (func_expr, pars).

(** ** The emitter (lines 157-187) *)

Definition indent8 : text := T "        ".

(** Lines 166-168 *)
Definition break_expr (func_expr : text) : text :=
  if 72 <? length func_expr then
    let func_expr := join (T " +" ++ [nl] ++ indent8) (split_on "+"%char func_expr) in
    join (T " *" ++ [nl] ++ indent8) (split_on "*"%char func_expr)
  else func_expr.

(** Lines 171-173 *)
Definition declare_variables (pars : list text) : text :=
  let d := T "variable " ++ join (T ", ") pars in
  if 72 <? length d then T "variable " ++ join (T ", " ++ [nl] ++ indent8) pars
  else d.

(** Lines 175-178 *)
Definition par_list (pars : list text) : text :=
  let p := T "[" ++ [dquote] ++ join ([dquote] ++ T "," ++ [dquote]) pars
           ++ [dquote] ++ T "]" in
  if 72 <? length p then
    T "[" ++ [dquote]
    ++ join ([dquote] ++ T "," ++ [nl] ++ indent8 ++ [dquote]) pars
    ++ [dquote] ++ T "]"
  else p.

(** Lines 184-185 *)
Fixpoint assign_pars (pars : list text) (i : nat) : text :=
  match pars with
  | [] => []
  | par :: rest =>
      T "    " ++ par ++ T " = par[" ++ str_of_nat i ++ T "];" ++ [nl]
      ++ assign_pars rest (S i)
  end.

(** What one [mdefine] line produces: the parameters, the expression
    after [return], and the whole text written to [out]. *)
Record emitted : Type := Emitted {
  em_name : text;
  em_pars : list text;
  em_return : text;
  em_par_list : text;
  em_written : text
}.

Definition emit (func_name : text) (pars : list text) (func_expr : text) : emitted :=
  let func_expr := break_expr func_expr in
  Emitted func_name pars func_expr (par_list pars)
    (T "define " ++ func_name ++ T "_fit(lo,hi,par)" ++ [nl] ++ T "{" ++ [nl]
     ++ T "    " ++ declare_variables pars ++ T ";" ++ [nl]
     ++ assign_pars pars 0
     ++ [nl] ++ T "    return " ++ func_expr ++ T ";" ++ [nl] ++ T "};" ++ [nl; nl]
     ++ T "add_slang_function(" ++ [dquote] ++ func_name ++ [dquote] ++ T ", "
     ++ par_list pars ++ T ");" ++ [nl; nl]).

(** ** [interpret_line] (lines 34-187) *)

(** Lines 46-49 *)
Definition mtype_of (line : text) : text :=
  if length (split_on ":"%char line) =? 1 then T "add"
  else strip (last_piece (split_on ":"%char line)).

(** Line 44 *)
Definition func_expr_of (line : text) : text :=
  join (T " ") (skipn 2 (split_on " "%char (hd [] (split_on ":"%char line)))).

(** Lines 54-187, with the registry as it is after line 52. *)
Definition translate (additive : list text) (func_name mtype func_expr : text)
  : result emitted :=
  r <- rewrite_expr additive func_expr ;;
  let func_expr := fst r in
  let pars := snd r in
  if text_eqb mtype (T "add") then
    Ok (emit func_name (T "norm" :: pars) (T "( " ++ func_expr ++ T " )*norm"))
  else Ok (emit func_name pars func_expr).

Definition interpret_line (additive : list text) (line : text)
  : list text * result emitted :=
  match nth_error (split_on " "%char line) 1 with
  | None => (additive, Raise IndexError)
  | Some func_name =>
      let func_expr := func_expr_of line in
      let mtype := mtype_of line in
      let additive :=
        if text_eqb mtype (T "add") then additive ++ [func_name] else additive in
      (additive, translate additive func_name mtype func_expr)
  end.

(** ** [convert_mdefine_file] (lines 189-203)

    [out] is the handle opened on line 191: the text written so far and
    whether [close] has run.  The input handle is managed by the [with]
    statement of line 193, which closes it however the block is left. *)

Record handle : Type := Handle { written : text; closed : bool }.

Record run : Type := Run {
  registry : list text;
  out : handle;
  input_closed : bool;
  printed : list text;
  outcome : result unit
}.

Definition header : text :=
  [nl] ++ T "%%% Automatically translated by parse_mdefine (D. J. K. Buisson) %%%"
  ++ [nl; nl].

Definition write (h : handle) (s : text) : handle :=
  Handle (written h ++ s) (closed h).

Definition failed_to_parse (line : text) : text :=
  T "Failed to parse line: " ++ [dquote] ++ line ++ [dquote].

(** Lines 194-202: the loop over the lines of the input file; it stops
    at the first line whose conversion raises. *)
Fixpoint convert_lines (additive : list text) (o : handle) (log : list text)
  (lines : list text) : list text * handle * list text * result unit :=
  match lines with
  | [] => (additive, o, log, Ok tt)
  | line :: rest =>
      match split_ws line with
      | [] => convert_lines additive o log rest
      | first :: _ =>
          if text_eqb first (T "#") then
            convert_lines additive (write o (T "%" ++ line)) log rest
          else if text_eqb first (T "mdefine") then
            match interpret_line additive line with
            | (additive, Ok em) =>
                convert_lines additive (write o (em_written em)) log rest
            | (additive, Raise e) => (additive, o, log, Raise e)
            | (additive, OutOfFuel) => (additive, o, log, OutOfFuel)
            end
          else convert_lines additive o (log ++ [failed_to_parse line]) rest
      end
  end.

Definition convert_mdefine_file (additive : list text) (lines : list text) : run :=
  let o := write (Handle [] false) header in
  match convert_lines additive o [] lines with
  | (additive, o, log, Ok tt) =>
      (* line 203 *)
      Run additive (Handle (written o) true) true log (Ok tt)
  | (additive, o, log, failure) =>
      (* the exception leaves the [with] block and the function *)
      Run additive o true log failure
  end.

(** ** The command line (lines 205-216) *)

(** Line 213: the input name with its last suffix replaced by [.sl]. *)
Definition default_output_name (input_xcm_file : text) : text :=
  join (T ".") (removelast (split_on "."%char input_xcm_file)) ++ T ".sl".

(** Lines 208-213, on [sys.argv]: the pair of file names handed to
    [convert_mdefine_file].  A missing [sys.argv[1]] raises
    [IndexError]; a missing [sys.argv[2]] is caught by the [except]. *)
Definition file_names (argv : list text) : result (text * text) :=
  match nth_error argv 1 with
  | None => Raise IndexError
  | Some input_xcm_file =>
      match nth_error argv 2 with
      | Some output_sl_file => Ok (input_xcm_file, output_sl_file)
      | None => Ok (input_xcm_file, default_output_name input_xcm_file)
      end
  end.

(** ** Vocabulary of the properties *)

(** Texts made of word characters only, and texts without a given
    character. *)
Definition all_word (w : text) : bool := forallb is_word w.

Definition without (c : ascii) (s : text) : bool :=
  forallb (fun x => negb (Ascii.eqb c x)) s.

Definition no_paren (s : text) : bool := without lparen s && without rparen s.

(** The text with its whitespace removed. *)
Definition unspaced (s : text) : text := filter (fun c => negb (is_space c)) s.

(** The names that the additive definitions of a file bring to the
    registry, in the order of the lines. *)
Definition added_names (lines : list text) : list text :=
  flat_map (fun line =>
              match split_ws line with
              | first :: _ =>
                  if negb (text_eqb first (T "#"))
                     && text_eqb first (T "mdefine")
                     && text_eqb (mtype_of line) (T "add")
                  then match nth_error (split_on " " line) 1 with
                       | Some func_name => [func_name]
                       | None => []
                       end
                  else []
              | [] => []
              end) lines.

(** The lines that [convert_mdefine_file] hands to [interpret_line]. *)
Definition is_mdefine (line : text) : bool :=
  match split_ws line with
  | first :: _ => negb (text_eqb first (T "#")) && text_eqb first (T "mdefine")
  | [] => false
  end.

(** [balanced_from d s]: reading [s] at depth [d], the depth never
    drops below zero and ends at zero. *)
Fixpoint balanced_from (d : nat) (s : text) : bool :=
  match s with
  | [] => d =? 0
  | c :: r =>
      if Ascii.eqb c lparen then balanced_from (S d) r
      else if Ascii.eqb c rparen then
             match d with 0 => false | S d' => balanced_from d' r end
           else balanced_from d r
  end.

Definition balanced (s : text) : bool := balanced_from 0 s.

Definition depth_step (c : ascii) : Z :=
  if Ascii.eqb c lparen then 1%Z else if Ascii.eqb c rparen then (-1)%Z else 0%Z.

(** Opening minus closing parentheses of [s]. *)
Fixpoint depth (s : text) : Z :=
  match s with
  | [] => 0%Z
  | c :: r => (depth_step c + depth r)%Z
  end.

(** The buffer left after one iteration of the loop. *)
Definition spliced (i : nat) (func_expr : text) : text :=
  firstn (i - 1) func_expr ++ T "])" ++ skipn i func_expr.

(** The emitted record of a line, when the line is converted. *)
Definition converted (line : text) : option emitted :=
  match snd (interpret_line additive_functions line) with
  | Ok em => Some em
  | _ => None
  end.

(** Lists in strictly increasing order of a key. *)
Definition increasing {A : Type} (key : A -> nat) (l : list A) : Prop :=
  StronglySorted (fun a b => key a < key b) l.

(** * Properties *)

(** ** Balanced parentheses *)

Lemma depth_app (a b : text) : depth (a ++ b) = (depth a + depth b)%Z.
Proof.
  induction a as [|c a IH]; simpl; [reflexivity | rewrite IH; lia].
Qed.

Lemma char_cases (c : ascii) :
  (Ascii.eqb c lparen = true /\ depth_step c = 1%Z)
  \/ (Ascii.eqb c lparen = false /\ Ascii.eqb c rparen = true
      /\ depth_step c = (-1)%Z)
  \/ (Ascii.eqb c lparen = false /\ Ascii.eqb c rparen = false
      /\ depth_step c = 0%Z).
Proof.
  unfold depth_step.
  destruct (Ascii.eqb c lparen); [|destruct (Ascii.eqb c rparen)]; auto.
Qed.

Lemma depth_firstn_S (c : ascii) (r : text) (k : nat) :
  depth (firstn (S k) (c :: r)) = (depth_step c + depth (firstn k r))%Z.
Proof. reflexivity. Qed.

Lemma balanced_from_depth (s : text) : forall d : nat,
  balanced_from d s = true <->
  ((Z.of_nat d + depth s = 0)%Z /\
   forall k, (0 <= Z.of_nat d + depth (firstn k s))%Z).
Proof.
  induction s as [|c r IH]; intros d; cbn [balanced_from depth].
  - rewrite Nat.eqb_eq. split.
    + intros ->. split; [reflexivity|]. intros k. rewrite firstn_nil. simpl. lia.
    + intros [H _]. lia.
  - destruct (char_cases c) as [(Eo & Hd) | [(Eo & Ec & Hd) | (Eo & Ec & Hd)]];
      rewrite Eo, ?Ec, Hd.
    + rewrite IH. split; intros [H1 H2]; (split; [lia|]).
      * intros [|k]; [simpl; lia|]. rewrite depth_firstn_S, Hd.
        specialize (H2 k). lia.
      * intros k. specialize (H2 (S k)). rewrite depth_firstn_S, Hd in H2. lia.
    + destruct d as [|d'].
      * split; [discriminate|]. intros [_ H2]. specialize (H2 1).
        rewrite depth_firstn_S, Hd in H2. simpl in H2. lia.
      * rewrite IH. split; intros [H1 H2]; (split; [lia|]).
        -- intros [|k]; [simpl; lia|]. rewrite depth_firstn_S, Hd.
           specialize (H2 k). lia.
        -- intros k. specialize (H2 (S k)).
           rewrite depth_firstn_S, Hd in H2. lia.
    + rewrite IH. split; intros [H1 H2]; (split; [lia|]).
      * intros [|k]; [simpl; lia|]. rewrite depth_firstn_S, Hd.
        specialize (H2 k). lia.
      * intros k. specialize (H2 (S k)). rewrite depth_firstn_S, Hd in H2. lia.
Qed.

(** The scan stops at the first index where the depth reaches zero,
    provided the text closes as many levels as are open. *)
Lemma scan_brackets_first_zero (s : text) : forall level i0 : nat,
  (Z.of_nat level + depth s <= 0)%Z ->
  exists k,
    scan_brackets s level i0 = Ok (i0 + k)
    /\ k <= length s
    /\ (Z.of_nat level + depth (firstn k s) = 0)%Z
    /\ (forall j, j < k -> (0 < Z.of_nat level + depth (firstn j s))%Z)
    /\ (0 < level -> 0 < k /\ nth_error s (k - 1) = Some rparen).
Proof.
  induction s as [|c r IH]; intros level i0 H.
  - simpl in H. assert (level = 0) by lia. subst level.
    exists 0. simpl. rewrite Nat.add_0_r.
    repeat split; try lia.
  - destruct level as [|below].
    + exists 0. simpl. rewrite Nat.add_0_r. repeat split; try lia.
    + cbn [depth] in H. cbn [scan_brackets].
      assert (Hstep : exists next : nat,
                 (Z.of_nat next = Z.of_nat (S below) + depth_step c)%Z
                 /\ scan_brackets (c :: r) (S below) i0
                    = scan_brackets r next (S i0)
                 /\ (next = 0 -> c = rparen)).
      { cbn [scan_brackets].
        destruct (char_cases c) as [(Eo & Hd) | [(Eo & Ec & Hd) | (Eo & Ec & Hd)]];
          rewrite Eo, ?Ec, Hd.
        - exists (S (S below)). split; [lia|]. split; [reflexivity|lia].
        - exists below. split; [lia|]. split; [reflexivity|].
          intros _. now apply Ascii.eqb_eq.
        - exists (S below). split; [lia|]. split; [reflexivity|lia]. }
      destruct Hstep as (next & Hnext & Hscan & Hclose).
      cbn [scan_brackets] in Hscan. rewrite Hscan.
      destruct (IH next (S i0)) as (k & Hs & Hk & Hz & Hm & Hl); [lia|].
      exists (S k). rewrite Hs. split; [f_equal; lia|].
      split; [simpl; lia|].
      split; [cbn [firstn depth]; lia|].
      split.
      * intros [|j] Hj; cbn [firstn depth]; [lia|].
        assert (Hlt : j < k) by lia. specialize (Hm j Hlt). lia.
      * intros _. split; [lia|].
        destruct next as [|n'].
        -- assert (k = 0).
           { destruct k as [|k']; [reflexivity|].
             assert (Hlt : 0 < S k') by lia.
             specialize (Hm 0 Hlt). simpl in Hm. lia. }
           subst k. simpl. now rewrite Hclose.
        -- destruct Hl as [Hk0 Hn]; [lia|].
           replace (S k - 1) with (S (k - 1)) by lia. exact Hn.
Qed.

(** C8.  In an expression with balanced parentheses, the scan started
    just past an opening parenthesis, at depth 1, returns an index [i]
    within the text (it never reads past the end); the text from that
    opening parenthesis up to index [i], whose last character is a
    closing parenthesis, is balanced, and none of its shorter non-empty
    prefixes is. *)
Theorem scan_brackets_matches (pre s : text) :
  balanced (pre ++ lparen :: s) = true ->
  exists i,
    scan_brackets s 1 0 = Ok i
    /\ 1 <= i <= length s
    /\ nth_error s (i - 1) = Some rparen
    /\ balanced (lparen :: firstn i s) = true
    /\ forall k, 0 < k < S i ->
         balanced (firstn k (lparen :: firstn i s)) = false.
Proof.
  intros Hb. apply balanced_from_depth in Hb. destruct Hb as [Htot Hpre].
  assert (Hlp : depth_step lparen = 1%Z) by reflexivity.
  rewrite depth_app in Htot. cbn [depth] in Htot. rewrite Hlp in Htot.
  specialize (Hpre (length pre)). rewrite firstn_app in Hpre.
  rewrite firstn_all, Nat.sub_diag in Hpre. cbn [firstn] in Hpre.
  rewrite app_nil_r in Hpre.
  destruct (scan_brackets_first_zero s 1 0) as (k & Hs & Hk & Hz & Hm & Hl);
    [lia|].
  destruct Hl as [Hk0 Hn]; [lia|].
  exists k. rewrite Nat.add_0_l in Hs.
  split; [exact Hs|]. split; [lia|]. split; [exact Hn|].
  split.
  - apply balanced_from_depth. cbn [depth]. rewrite Hlp. split; [lia|].
    intros [|j]; [simpl; lia|]. rewrite depth_firstn_S, Hlp, firstn_firstn.
    destruct (Nat.lt_ge_cases j k) as [Hlt|Hge].
    + rewrite Nat.min_l by lia. specialize (Hm j Hlt). lia.
    + rewrite Nat.min_r by lia. lia.
  - intros [|j] Hj; [lia|].
    destruct (balanced (firstn (S j) (lparen :: firstn k s))) eqn:E; [|reflexivity].
    apply balanced_from_depth in E. destruct E as [E _].
    rewrite depth_firstn_S, Hlp, firstn_firstn, Nat.min_l in E by lia.
    assert (Hlt : j < k) by lia. specialize (Hm j Hlt). lia.
Qed.

Lemma scan_brackets_matches_witness :
  exists i,
    scan_brackets (T "a,(b-c))+d") 1 0 = Ok i
    /\ 1 <= i <= length (T "a,(b-c))+d")
    /\ nth_error (T "a,(b-c))+d") (i - 1) = Some rparen
    /\ balanced (lparen :: firstn i (T "a,(b-c))+d")) = true
    /\ forall k, 0 < k < S i ->
         balanced (firstn k (lparen :: firstn i (T "a,(b-c))+d"))) = false.
Proof.
  apply (scan_brackets_matches (T "2*min") (T "a,(b-c))+d")).
  reflexivity.
Defined.

(** ** The rewriting loop terminates and unrolls *)

Lemma is_prefix_length (n s : text) :
  is_prefix n s = true -> length n <= length s.
Proof.
  revert s. induction n as [|x n IH]; intros [|y s] H; simpl in *;
    try lia; try discriminate.
  apply andb_prop in H. destruct H as [_ H]. apply IH in H. lia.
Qed.

Lemma search_from_span (name : text) (s : text) :
  forall prev pos m_start m_end,
    search_from name prev s pos = Some (m_start, m_end) ->
    pos <= m_start /\ m_end = m_start + length name
    /\ (m_start - pos) + length name <= length s.
Proof.
  induction s as [|c r IH]; intros prev pos ms me H; cbn [search_from] in H.
  - destruct (match_here name prev []) eqn:M; [|discriminate].
    injection H as <- <-. unfold match_here in M.
    apply andb_prop in M. destruct M as [M _].
    apply andb_prop in M. destruct M as [M _].
    apply is_prefix_length in M. lia.
  - destruct (match_here name prev (c :: r)) eqn:M.
    + injection H as <- <-. unfold match_here in M.
      apply andb_prop in M. destruct M as [M _].
      apply andb_prop in M. destruct M as [M _].
      apply is_prefix_length in M. lia.
    + apply IH in H. simpl. lia.
Qed.

Lemma search_word_span (name s : text) (m_start m_end : nat) :
  search_word name s = Some (m_start, m_end) ->
  m_end = m_start + length name /\ m_end <= length s.
Proof.
  intros H. apply search_from_span in H. lia.
Qed.

Lemma search_paren_bound (s : text) (p : nat) :
  search_paren s = Some p -> 1 <= p <= length s.
Proof.
  revert p. induction s as [|c r IH]; intros p H; simpl in H; [discriminate|].
  destruct (Ascii.eqb c lparen).
  - injection H as <-. simpl. lia.
  - destruct (search_paren r) as [q|]; [|discriminate].
    injection H as <-. specialize (IH q eq_refl). simpl. lia.
Qed.

Lemma scan_brackets_bound (s : text) :
  forall level i0 i,
    scan_brackets s level i0 = Ok i ->
    i0 <= i <= i0 + length s /\ (0 < level -> i0 < i).
Proof.
  induction s as [|c r IH]; intros level i0 i H; destruct level as [|below];
    cbn [scan_brackets] in H; try discriminate;
    try (injection H as <-; simpl; lia).
  destruct (Ascii.eqb c lparen); [|destruct (Ascii.eqb c rparen)];
    apply IH in H; simpl; lia.
Qed.

Lemma spliced_length (i : nat) (s : text) :
  1 <= i <= length s -> length (spliced i s) = S (length s).
Proof.
  intros H. unfold spliced.
  rewrite !length_app, length_firstn, length_skipn. simpl. lia.
Qed.

(** One iteration leaves a strictly shorter buffer. *)
Lemma iteration_shrinks (name s : text) (m_start m_end p i : nat) :
  name <> [] ->
  search_word name s = Some (m_start, m_end) ->
  search_paren (skipn m_end s) = Some p ->
  scan_brackets (skipn p (skipn m_end s)) 1 0 = Ok i ->
  length (spliced i (skipn p (skipn m_end s))) < length s.
Proof.
  intros Hn Hs Hp Hi.
  apply search_word_span in Hs. apply search_paren_bound in Hp.
  apply scan_brackets_bound in Hi.
  rewrite length_skipn in Hp.
  assert (0 < length name) by (destruct name; [congruence | simpl; lia]).
  rewrite spliced_length; rewrite !length_skipn in *; lia.
Qed.

(** With at least [length func_expr] iterations allowed, the model's
    loop never stops for lack of fuel, and more fuel changes nothing. *)
Lemma call_loop_fuel (name opening : text) :
  name <> [] ->
  forall fuel fuel' acc s,
    length s <= fuel -> length s <= fuel' ->
    call_loop fuel name opening acc s <> OutOfFuel
    /\ call_loop fuel name opening acc s = call_loop fuel' name opening acc s.
Proof.
  intros Hn. induction fuel as [|f IH]; intros fuel' acc s H1 H2.
  - destruct s; [|simpl in H1; lia].
    destruct fuel'; simpl; unfold search_word; simpl;
      destruct (match_here name None []) eqn:M; try (split; congruence);
      unfold match_here in M; destruct name; try congruence; discriminate.
  - cbn [call_loop].
    destruct (search_word name s) as [[ms me]|] eqn:Hs.
    2:{ destruct fuel'; cbn [call_loop]; rewrite Hs; split; congruence. }
    destruct fuel' as [|f'].
    { apply search_word_span in Hs.
      destruct name; [congruence|]. simpl in Hs. lia. }
    cbn [call_loop]. rewrite Hs.
    destruct (search_paren (skipn me s)) as [p|] eqn:Hp; [|split; congruence].
    destruct (scan_brackets (skipn p (skipn me s)) 1 0) as [i| |] eqn:Hi;
      cbn [bind]; try (split; congruence).
    + pose proof (iteration_shrinks name s _ _ _ _ Hn Hs Hp Hi) as Hlt.
      unfold spliced in Hlt. apply IH; lia.
    + exfalso. clear -Hi.
      assert (G : forall t l i0, scan_brackets t l i0 <> OutOfFuel).
      { induction t as [|c r IHt]; intros [|b] i0; cbn [scan_brackets];
          try congruence.
        destruct (Ascii.eqb c lparen); [|destruct (Ascii.eqb c rparen)];
          apply IHt. }
      exact (G _ _ _ Hi).
Qed.

Lemma call_loop_acc (name opening : text) :
  forall fuel acc s,
    call_loop fuel name opening acc s
    = (r <- call_loop fuel name opening [] s ;; Ok (acc ++ r)).
Proof.
  induction fuel as [|f IH]; intros acc s; cbn [call_loop];
    destruct (search_word name s) as [[ms me]|]; cbn [bind]; try reflexivity.
  destruct (search_paren (skipn me s)) as [p|]; [|reflexivity].
  destruct (scan_brackets (skipn p (skipn me s)) 1 0) as [i| |];
    cbn [bind]; try reflexivity.
  rewrite IH. rewrite (IH ([] ++ _)).
  destruct (call_loop f name opening [] _); cbn [bind]; try reflexivity.
  now rewrite !app_nil_l, !app_assoc.
Qed.

(** The loop, unrolled once: the text before the first match, the
    opening text, then the rewriting of what follows the matching
    parenthesis search. *)
Lemma rewrite_calls_unfold (name opening s : text) (m_start m_end : nat) :
  name <> [] ->
  search_word name s = Some (m_start, m_end) ->
  rewrite_calls name opening s =
  match search_paren (skipn m_end s) with
  | None => Raise AttributeError
  | Some p =>
      i <- scan_brackets (skipn p (skipn m_end s)) 1 0 ;;
      r <- rewrite_calls name opening (spliced i (skipn p (skipn m_end s))) ;;
      Ok (firstn m_start s ++ opening ++ r)
  end.
Proof.
  intros Hn Hs. unfold rewrite_calls.
  destruct (length s) as [|f] eqn:L.
  { apply search_word_span in Hs. destruct name; [congruence|]. simpl in Hs. lia. }
  cbn [call_loop]. rewrite Hs.
  destruct (search_paren (skipn m_end s)) as [p|] eqn:Hp; [|reflexivity].
  destruct (scan_brackets (skipn p (skipn m_end s)) 1 0) as [i| |] eqn:Hi;
    cbn [bind]; try reflexivity.
  pose proof (iteration_shrinks name s _ _ _ _ Hn Hs Hp Hi) as Hlt.
  rewrite call_loop_acc. fold (spliced i (skipn p (skipn m_end s))).
  destruct (call_loop_fuel name opening Hn f
              (length (spliced i (skipn p (skipn m_end s))))
              [] (spliced i (skipn p (skipn m_end s)))) as [_ ->]; try lia.
  destruct (call_loop _ name opening [] _); cbn [bind]; try reflexivity.
  now rewrite app_nil_l, app_assoc.
Qed.

Lemma rewrite_calls_no_match (name opening s : text) :
  search_word name s = None -> rewrite_calls name opening s = Ok s.
Proof.
  intros H. unfold rewrite_calls. destruct (length s); cbn [call_loop];
    rewrite H; reflexivity.
Qed.

(** The loop always returns or raises: it terminates. *)
Lemma rewrite_calls_terminates (name opening s : text) :
  name <> [] -> rewrite_calls name opening s <> OutOfFuel.
Proof.
  intros Hn. unfold rewrite_calls.
  apply (call_loop_fuel name opening Hn (length s) (length s)); lia.
Qed.

(** ** Equality and membership of texts *)

Lemma text_eqb_eq (a b : text) : text_eqb a b = true <-> a = b.
Proof.
  revert b. induction a as [|x a IH]; intros [|y b]; simpl;
    try (split; [discriminate | congruence]); [tauto|].
  rewrite andb_true_iff, Ascii.eqb_eq, IH. split.
  - intros [-> ->]. reflexivity.
  - intros H. injection H as -> ->. auto.
Qed.

Lemma text_eqb_refl (a : text) : text_eqb a a = true.
Proof. now apply text_eqb_eq. Qed.

Lemma mem_In (w : text) (l : list text) : mem w l = true <-> In w l.
Proof.
  unfold mem. rewrite existsb_exists. split.
  - intros (x & Hx & E). apply text_eqb_eq in E. now subst.
  - intros H. exists w. split; [exact H | apply text_eqb_refl].
Qed.

(** ** The min/max pass run twice *)

(** C3, as stated, fails: a second run of the min/max pass on the
    output of the first wraps the arguments of [min(a,b)] in a second
    pair of square brackets. *)
Lemma multi_arg_wraps_again :
  multi_arg (T "min(a,b)") = Ok (T "min([a,b])")
  /\ multi_arg (T "min([a,b])") = Ok (T "min([[a,b]])")
  /\ (e1 <- multi_arg (T "min(a,b)") ;; multi_arg e1)
     <> multi_arg (T "min(a,b)").
Proof.
  repeat split; try (vm_compute; reflexivity).
  vm_compute. discriminate.
Qed.

(** C3, amended.  On an expression in which neither [min] nor [max]
    occurs as a standalone word the min/max pass returns the text
    unchanged, so that running it twice is the same as running it
    once. *)
Theorem multi_arg_fixed_without_calls (func_expr : text) :
  search_word (T "min") func_expr = None ->
  search_word (T "max") func_expr = None ->
  multi_arg func_expr = Ok func_expr
  /\ (e1 <- multi_arg func_expr ;; multi_arg e1) = multi_arg func_expr.
Proof.
  intros Hmin Hmax.
  assert (H : multi_arg func_expr = Ok func_expr).
  { unfold multi_arg, multi_arg_pass.
    rewrite (rewrite_calls_no_match _ _ _ Hmin). cbn [bind].
    apply rewrite_calls_no_match, Hmax. }
  split; [exact H|]. rewrite H. cbn [bind]. exact H.
Qed.

Lemma multi_arg_fixed_without_calls_witness :
  multi_arg (T "smin(a,b)+maxi*c") = Ok (T "smin(a,b)+maxi*c")
  /\ (e1 <- multi_arg (T "smin(a,b)+maxi*c") ;; multi_arg e1)
     = multi_arg (T "smin(a,b)+maxi*c").
Proof.
  apply (multi_arg_fixed_without_calls (T "smin(a,b)+maxi*c")); reflexivity.
Defined.

(** ** The registry of additive functions *)

Lemma mem_app_l (w : text) (l k : list text) :
  mem w l = true -> mem w (l ++ k) = true.
Proof.
  unfold mem. rewrite existsb_app. intros ->. reflexivity.
Qed.

Lemma interpret_line_keeps (reg : list text) (line w : text) :
  mem w reg = true -> mem w (fst (interpret_line reg line)) = true.
Proof.
  intros H. unfold interpret_line.
  destruct (nth_error (split_on " "%char line) 1); cbn [fst]; [|exact H].
  destruct (text_eqb (mtype_of line) (T "add")); [|exact H].
  now apply mem_app_l.
Qed.

(** ** Model types *)

(** What a line of type [add] gets on top of the rewritten expression:
    the parameter [norm] in front and the factor [norm]. *)
Lemma add_type_is_normalised (additive : list text) (line : text) (em : emitted) :
  mtype_of line = T "add" ->
  snd (interpret_line additive line) = Ok em ->
  exists func_name func_expr pars,
    fst (interpret_line additive line) = additive ++ [func_name]
    /\ rewrite_expr (additive ++ [func_name]) (func_expr_of line)
       = Ok (func_expr, pars)
    /\ em_pars em = T "norm" :: pars
    /\ em_return em = break_expr (T "( " ++ func_expr ++ T " )*norm").
Proof.
  intros Ht. unfold interpret_line.
  destruct (nth_error (split_on " "%char line) 1) as [func_name|];
    cbn [fst snd]; [|discriminate].
  rewrite Ht. change (text_eqb (T "add") (T "add")) with true. cbv iota.
  unfold translate.
  destruct (rewrite_expr (additive ++ [func_name]) (func_expr_of line))
    as [[fe pars]| |] eqn:E; cbn [bind fst snd]; try discriminate.
  change (text_eqb (T "add") (T "add")) with true. cbv iota.
  intros H. injection H as <-.
  exists func_name, fe, pars. repeat split; try reflexivity. exact E.
Qed.

(** C10.  A line whose type tag is anything but [add] leaves the
    registry as it was, emits exactly the extracted parameters (no
    [norm] in front) and returns the rewritten expression itself (no
    factor [norm]); handled by [convert_mdefine_file] it prints no
    diagnostic. *)
Theorem other_types_are_not_additive (additive : list text) (line : text) :
  mtype_of line <> T "add" ->
  fst (interpret_line additive line) = additive
  /\ (forall em, snd (interpret_line additive line) = Ok em ->
        exists func_expr pars,
          rewrite_expr additive (func_expr_of line) = Ok (func_expr, pars)
          /\ em_pars em = pars
          /\ em_return em = break_expr func_expr)
  /\ (hd_error (split_ws line) = Some (T "mdefine") ->
      printed (convert_mdefine_file additive [line]) = []).
Proof.
  intros Ht.
  assert (Hb : text_eqb (mtype_of line) (T "add") = false).
  { destruct (text_eqb (mtype_of line) (T "add")) eqn:E; [|reflexivity].
    apply text_eqb_eq in E. contradiction. }
  split; [|split].
  - unfold interpret_line.
    destruct (nth_error (split_on " "%char line) 1); [|reflexivity].
    rewrite Hb. reflexivity.
  - intros em. unfold interpret_line.
    destruct (nth_error (split_on " "%char line) 1) as [func_name|];
      cbn [snd]; [|discriminate].
    rewrite Hb. unfold translate.
    destruct (rewrite_expr additive (func_expr_of line)) as [[fe pars]| |];
      cbn [bind fst snd]; try discriminate.
    rewrite Hb. intros H. injection H as <-.
    exists fe, pars. repeat split; reflexivity.
  - intros Hd. unfold convert_mdefine_file. cbn [convert_lines].
    destruct (split_ws line) as [|first rest]; [discriminate|].
    injection Hd as ->.
    change (text_eqb (T "mdefine") (T "#")) with false.
    change (text_eqb (T "mdefine") (T "mdefine")) with true. cbv iota.
    destruct (interpret_line additive line) as [reg [em|e|]]; reflexivity.
Qed.

Lemma other_types_are_not_additive_witness :
  let line := T "mdefine absorb exp(-tau*e) : mul" ++ [nl] in
  fst (interpret_line additive_functions line) = additive_functions
  /\ (forall em, snd (interpret_line additive_functions line) = Ok em ->
        exists func_expr pars,
          rewrite_expr additive_functions (func_expr_of line)
          = Ok (func_expr, pars)
          /\ em_pars em = pars
          /\ em_return em = break_expr func_expr)
  /\ (hd_error (split_ws line) = Some (T "mdefine") ->
      printed (convert_mdefine_file additive_functions [line]) = []).
Proof.
  intros line.
  apply (other_types_are_not_additive additive_functions line).
  vm_compute. discriminate.
Defined.

(** The same holds of a tag that is no model type at all. *)
Example unknown_type_is_silent :
  let line := T "mdefine absorb exp(-tau*e) : Add" ++ [nl] in
  mtype_of line = T "Add"
  /\ registry (convert_mdefine_file additive_functions [line]) = additive_functions
  /\ printed (convert_mdefine_file additive_functions [line]) = []
  /\ option_map em_pars
       (match snd (interpret_line additive_functions line) with
        | Ok em => Some em | _ => None end) = Some [T "tau"].
Proof. vm_compute. repeat split; reflexivity. Qed.

(** ** The output file *)

(** [out.close()] on line 203 is reached exactly when no line raised. *)
Lemma closed_iff_no_exception (additive : list text) (lines : list text) :
  closed (out (convert_mdefine_file additive lines)) = true
  <-> outcome (convert_mdefine_file additive lines) = Ok tt.
Proof.
  unfold convert_mdefine_file.
  assert (G : forall ls reg o log,
             closed o = false ->
             closed (snd (fst (fst (convert_lines reg o log ls)))) = false).
  { induction ls as [|l ls IH]; intros reg o log Ho; cbn [convert_lines];
      [exact Ho|].
    destruct (split_ws l) as [|first rest]; [now apply IH|].
    destruct (text_eqb first (T "#")); [now apply IH|].
    destruct (text_eqb first (T "mdefine")); [|now apply IH].
    destruct (interpret_line reg l) as [reg' [em|e|]]; cbn [fst snd];
      [now apply IH | exact Ho | exact Ho]. }
  specialize (G lines additive (write (Handle [] false) header) [] eq_refl).
  destruct (convert_lines additive (write (Handle [] false) header) [] lines)
    as [[[reg o] log] [[]|e|]]; cbn [fst snd] in G; cbn [out outcome closed].
  - split; reflexivity.
  - rewrite G. split; discriminate.
  - rewrite G. split; discriminate.
Qed.

(** C9.  A line with an unclosed parenthesis makes [interpret_line]
    raise [IndexError]; [convert_mdefine_file] is left by that
    exception with the input file closed by its [with] statement and
    the output file, holding the header and the first line, not
    closed. *)
Theorem output_left_open_on_error :
  let r := convert_mdefine_file additive_functions
             [T "# cutoff" ++ [nl]; T "mdefine cut max(a" ++ [nl];
              T "mdefine pl e*a" ++ [nl]] in
  outcome r = Raise IndexError
  /\ closed (out r) = false
  /\ input_closed r = true
  /\ written (out r) = header ++ T "%# cutoff" ++ [nl].
Proof. vm_compute. repeat split; reflexivity. Qed.

(** ** Lines run through [interpret_line] *)

(** The last piece of [func_expr.split('(')] is not before a bracket,
    yet line 99 takes its last word for a function name. *)
Example trailing_word_is_a_function_name :
  sub_func_names_of (T "e*a") = [T "a"]
  /\ sub_func_names_of (T "e*a" ++ [nl]) = [].
Proof. split; reflexivity. Qed.

(** C1.  On the line [mdefine mypow e*a], with nothing after the [a],
    the word [a] is taken for a sub-function, its "call" has no
    parenthesis to be found, and [interpret_line] raises
    [AttributeError] after registering [mypow]; nothing is emitted. *)
Theorem mypow_line_raises :
  interpret_line additive_functions (T "mdefine mypow e*a")
  = (additive_functions ++ [T "mypow"], Raise AttributeError).
Proof. vm_compute. reflexivity. Qed.

(** The same line with its line terminator, as the loop over the input
    file hands it over, is converted as C1 says. *)
Example mypow_line_terminated :
  let line := T "mdefine mypow e*a" ++ [nl] in
  option_map em_return (converted line)
  = Some (T "( (6.19920995*(lo+hi)/lo/hi)*a" ++ [nl] ++ T " )*norm")
  /\ option_map em_pars (converted line) = Some [T "norm"; T "a"]
  /\ option_map em_par_list (converted line)
     = Some (T "[" ++ [dquote] ++ T "norm" ++ [dquote] ++ T ","
             ++ [dquote] ++ T "a" ++ [dquote] ++ T "]").
Proof. vm_compute. repeat split; reflexivity. Qed.

(** A name of the catalogue is left alone by the sub-function pass. *)
Lemma special_function_not_wrapped (additive : list text) (name func_expr : text) :
  mem name special_functions = true ->
  wrap_pass additive name func_expr = Ok func_expr.
Proof.
  intros H. unfold wrap_pass. rewrite H. reflexivity.
Qed.

Example special_function_members :
  map (fun name => mem (T name) special_functions)
      ["exp"; "sin"; "sqrt"; "min"; "max"; " max"]%string
  = [true; true; true; true; false; true].
Proof. reflexivity. Qed.

(** C2.  The catalogue holds [' max'], not ['max']: a call of [max] is
    wrapped by the sub-function pass into [eval_fun2(&max,lo,hi, [...])],
    here after the min/max pass has put its arguments in an array. *)
Theorem max_call_is_wrapped :
  let line := T "mdefine m max(a,b)" ++ [nl] in
  mem (T "max") special_functions = false
  /\ wrap_subfunctions additive_functions
       (sub_func_names_of (T "max([a,b])")) (T "max([a,b])")
     = Ok (T "eval_fun2(&max,lo,hi, [[a,b]])")
  /\ option_map em_return (converted line)
     = Some (T "( eval_fun2(&max,lo,hi, [[a,b]])" ++ [nl] ++ T " )*norm").
Proof. vm_compute. repeat split; reflexivity. Qed.

(** C4.  Lines 95-96 compute the renamed text and drop it: [smin] and
    [smax] reach the output as they were written. *)
Theorem smin_smax_not_renamed :
  let line := T "mdefine m smin(a,b)+smax(c,d)" ++ [nl] in
  sub_call (T "smin") (T "min(") (T "smin(a,b)+smax(c,d)")
  = T "min(a,b)+smax(c,d)"
  /\ option_map em_return (converted line)
     = Some (T "( smin(a,b)+smax(c,d)" ++ [nl] ++ T " )*norm").
Proof. vm_compute. split; reflexivity. Qed.

(** C7.  The search of lines 71 and 118 is for the word alone.  A
    parameter called [min] is taken for a call: the text up to the next
    opening parenthesis, here [*exp], is dropped and the arguments of
    [exp] are wrapped as those of [min]; with no parenthesis after the
    word, [AttributeError] is raised. *)
Theorem plain_word_taken_as_call :
  search_word (T "min") (T "min*exp(-e)") = Some (0, 3)
  /\ multi_arg (T "min*exp(-e)") = Ok (T "min([-e])")
  /\ option_map em_return (converted (T "mdefine cut min*exp(-e)" ++ [nl]))
     = Some (T "( min([-(6.19920995*(lo+hi)/lo/hi)])" ++ [nl] ++ T " )*norm")
  /\ snd (interpret_line additive_functions (T "mdefine cut exp(-e/min)" ++ [nl]))
     = Raise AttributeError.
Proof. vm_compute. repeat split; reflexivity. Qed.

(** ** Sorting *)

Section InsertionSort.

Context {A : Type} (leb : A -> A -> bool).

Hypothesis leb_total : forall a b, leb a b = false -> leb b a = true.
Hypothesis leb_trans :
  forall a b c, leb a b = true -> leb b c = true -> leb a c = true.

Lemma insert_by_perm (x : A) (l : list A) :
  Permutation (insert_by leb x l) (x :: l).
Proof.
  induction l as [|y r IH]; cbn [insert_by]; [reflexivity|].
  destruct (leb x y); [reflexivity|].
  rewrite IH. apply perm_swap.
Qed.

Lemma sort_by_perm (l : list A) : Permutation (sort_by leb l) l.
Proof.
  induction l as [|x r IH]; cbn [sort_by fold_right]; [reflexivity|].
  rewrite insert_by_perm. now apply perm_skip.
Qed.

Lemma insert_by_sorted (x : A) (l : list A) :
  StronglySorted (fun a b => leb a b = true) l ->
  StronglySorted (fun a b => leb a b = true) (insert_by leb x l).
Proof.
  induction l as [|y r IH]; intros Hs; cbn [insert_by].
  - repeat constructor.
  - apply StronglySorted_inv in Hs. destruct Hs as [Hr Hy].
    destruct (leb x y) eqn:E.
    + constructor; [constructor; assumption|].
      constructor; [exact E|].
      eapply Forall_impl; [|exact Hy]. intros z Hz.
      exact (leb_trans x y z E Hz).
    + constructor; [now apply IH|].
      eapply Permutation_Forall;
        [apply Permutation_sym, insert_by_perm|].
      constructor; [now apply leb_total | exact Hy].
Qed.

Lemma sort_by_sorted (l : list A) :
  StronglySorted (fun a b => leb a b = true) (sort_by leb l).
Proof.
  induction l as [|x r IH]; cbn [sort_by fold_right]; [constructor|].
  now apply insert_by_sorted.
Qed.

End InsertionSort.

(** The order of numpy on strings: code point by code point. *)

Lemma nat_of_ascii_inj (x y : ascii) : nat_of_ascii x = nat_of_ascii y -> x = y.
Proof.
  intros H. rewrite <- (ascii_nat_embedding x), <- (ascii_nat_embedding y).
  now rewrite H.
Qed.

Lemma text_leb_total (a b : text) : text_leb a b = false -> text_leb b a = true.
Proof.
  revert b. induction a as [|x a IH]; intros [|y b]; cbn [text_leb];
    try reflexivity; try discriminate.
  destruct (nat_of_ascii x <? nat_of_ascii y) eqn:E1; [discriminate|].
  destruct (nat_of_ascii y <? nat_of_ascii x) eqn:E2; [reflexivity|].
  apply IH.
Qed.

Lemma text_leb_trans (a b c : text) :
  text_leb a b = true -> text_leb b c = true -> text_leb a c = true.
Proof.
  revert b c. induction a as [|x a IH]; intros [|y b] [|z c];
    cbn [text_leb]; try reflexivity; try discriminate.
  destruct (nat_of_ascii x <? nat_of_ascii y) eqn:E1;
    destruct (nat_of_ascii y <? nat_of_ascii x) eqn:E2;
    destruct (nat_of_ascii y <? nat_of_ascii z) eqn:E3;
    destruct (nat_of_ascii z <? nat_of_ascii y) eqn:E4;
    destruct (nat_of_ascii x <? nat_of_ascii z) eqn:E5;
    destruct (nat_of_ascii z <? nat_of_ascii x) eqn:E6;
    try reflexivity; try discriminate;
    rewrite ?Nat.ltb_lt, ?Nat.ltb_ge in *; try lia.
  apply IH.
Qed.

Lemma text_leb_antisym (a b : text) :
  text_leb a b = true -> text_leb b a = true -> a = b.
Proof.
  revert b. induction a as [|x a IH]; intros [|y b]; cbn [text_leb];
    try reflexivity; try discriminate.
  destruct (nat_of_ascii x <? nat_of_ascii y) eqn:E1;
    destruct (nat_of_ascii y <? nat_of_ascii x) eqn:E2;
    try discriminate; rewrite ?Nat.ltb_lt, ?Nat.ltb_ge in *; try lia.
  intros H1 H2. f_equal; [apply nat_of_ascii_inj; lia | now apply IH].
Qed.

Lemma key_leb_total (p q : nat * nat) : key_leb p q = false -> key_leb q p = true.
Proof.
  unfold key_leb. rewrite Nat.leb_gt, Nat.leb_le. lia.
Qed.

Lemma key_leb_trans (p q r : nat * nat) :
  key_leb p q = true -> key_leb q r = true -> key_leb p r = true.
Proof.
  unfold key_leb. rewrite !Nat.leb_le. lia.
Qed.

(** ** [np.unique]: the distinct values *)

Lemma drop_repeats_In (x : text) (l : list text) :
  In x (drop_repeats l) <-> In x l.
Proof.
  induction l as [|a r IH]; [tauto|].
  destruct r as [|b r']; [cbn; tauto|].
  cbn [drop_repeats]. cbn [drop_repeats] in IH.
  destruct (text_eqb a b) eqn:E.
  - apply text_eqb_eq in E. subst b. rewrite IH. cbn [In]. tauto.
  - cbn [In]. cbn [In] in IH. rewrite IH. tauto.
Qed.

Lemma drop_repeats_NoDup (l : list text) :
  StronglySorted (fun a b => text_leb a b = true) l -> NoDup (drop_repeats l).
Proof.
  induction l as [|a r IH]; intros Hs; [constructor|].
  apply StronglySorted_inv in Hs. destruct Hs as [Hr Ha].
  specialize (IH Hr).
  destruct r as [|b r']; [cbn; repeat constructor; tauto|].
  cbn [drop_repeats]. cbn [drop_repeats] in IH.
  destruct (text_eqb a b) eqn:E; [exact IH|].
  constructor; [|exact IH].
  intros Hin.
  change (In a (drop_repeats (b :: r'))) in Hin.
  apply (proj1 (drop_repeats_In a (b :: r'))) in Hin.
  assert (Hab : text_leb a b = true) by (inversion Ha; assumption).
  assert (Hba : text_leb b a = true).
  { cbn [In] in Hin. destruct Hin as [Hin|Hin]; [now subst b|].
    apply StronglySorted_inv in Hr. destruct Hr as [_ Hb].
    rewrite Forall_forall in Hb. now apply Hb. }
  pose proof (text_leb_antisym a b Hab Hba) as Heq.
  apply text_eqb_eq in Heq. congruence.
Qed.

Lemma np_unique_In (x : text) (l : list text) : In x (np_unique l) <-> In x l.
Proof.
  unfold np_unique, sort_text. rewrite drop_repeats_In. split; intros H.
  - eapply Permutation_in; [apply sort_by_perm | exact H].
  - eapply Permutation_in; [apply Permutation_sym, sort_by_perm | exact H].
Qed.

Lemma np_unique_NoDup (l : list text) : NoDup (np_unique l).
Proof.
  apply drop_repeats_NoDup, sort_by_sorted.
  - exact text_leb_total.
  - exact text_leb_trans.
Qed.

(** ** First occurrences *)

Lemma index_of_inj (l : list text) (x y : text) :
  In x l -> index_of x l = index_of y l -> x = y.
Proof.
  induction l as [|w r IH]; intros Hx H; [contradiction|].
  cbn [index_of] in H.
  destruct (text_eqb x w) eqn:Ex; destruct (text_eqb y w) eqn:Ey;
    try discriminate.
  - apply text_eqb_eq in Ex, Ey. congruence.
  - apply IH; [|congruence].
    destruct Hx as [Hx|Hx]; [|exact Hx].
    subst w. rewrite text_eqb_refl in Ex. discriminate.
Qed.

(** Two lists in strictly increasing order of one key that hold the
    same elements are the same list. *)
Lemma increasing_unique {A : Type} (key : A -> nat) (l k : list A) :
  increasing key l -> increasing key k ->
  (forall x, In x l <-> In x k) -> l = k.
Proof.
  unfold increasing. revert k.
  induction l as [|a l IH]; intros [|b k] Hl Hk Hsame.
  - reflexivity.
  - destruct (proj2 (Hsame b)); left; reflexivity.
  - destruct (proj1 (Hsame a)); left; reflexivity.
  - apply StronglySorted_inv in Hl, Hk.
    destruct Hl as [Hl Ha], Hk as [Hk Hb].
    rewrite Forall_forall in Ha, Hb.
    assert (Hab : a = b).
    { destruct (proj1 (Hsame a) (or_introl eq_refl)) as [E|Hin]; [now symmetry|].
      destruct (proj2 (Hsame b) (or_introl eq_refl)) as [E|Hin']; [exact E|].
      specialize (Hb a Hin). specialize (Ha b Hin'). lia. }
    subst b. f_equal. apply IH; try assumption.
    intros x. split; intros Hx.
    + destruct (proj1 (Hsame x) (or_intror Hx)) as [E|Hin]; [|exact Hin].
      subst x. specialize (Ha a Hx). lia.
    + destruct (proj2 (Hsame x) (or_intror Hx)) as [E|Hin]; [|exact Hin].
      subst x. specialize (Hb a Hx). lia.
Qed.

Lemma increasing_filter {A : Type} (key : A -> nat) (p : A -> bool) (l : list A) :
  increasing key l -> increasing key (filter p l).
Proof.
  unfold increasing. induction l as [|a l IH]; intros H; [constructor|].
  apply StronglySorted_inv in H. destruct H as [Hl Ha]. cbn [filter].
  destruct (p a); [|now apply IH].
  constructor; [now apply IH|].
  rewrite Forall_forall in *. intros x Hx. apply filter_In in Hx.
  apply Ha. tauto.
Qed.

Lemma increasing_ext {A : Type} (key key' : A -> nat) (l : list A) :
  (forall a b, In a l -> In b l -> key a < key b -> key' a < key' b) ->
  increasing key l -> increasing key' l.
Proof.
  unfold increasing. induction l as [|a l IH]; intros Hext H; [constructor|].
  apply StronglySorted_inv in H. destruct H as [Hl Ha].
  constructor.
  - apply IH; [|exact Hl]. intros x y Hx Hy. apply Hext; now right.
  - rewrite Forall_forall in *. intros x Hx.
    apply Hext; [now left | now right | now apply Ha].
Qed.

Lemma first_occurrences_In (x : text) (l : list text) :
  In x (first_occurrences l) <-> In x l.
Proof.
  induction l as [|w r IH]; [tauto|].
  cbn [first_occurrences In]. rewrite filter_In, IH.
  destruct (text_eqb x w) eqn:E.
  - apply text_eqb_eq in E. subst. cbn. intuition discriminate.
  - cbn. intuition.
Qed.

Lemma first_occurrences_NoDup (l : list text) : NoDup (first_occurrences l).
Proof.
  induction l as [|w r IH]; cbn [first_occurrences]; constructor.
  - rewrite filter_In. intros [_ H]. rewrite text_eqb_refl in H. discriminate.
  - now apply NoDup_filter.
Qed.

(** The first occurrences come in the order of their first index. *)
Lemma first_occurrences_increasing (l : list text) :
  increasing (fun w => index_of w l) (first_occurrences l).
Proof.
  induction l as [|w r IH]; [constructor|].
  cbn [first_occurrences]. constructor.
  - apply increasing_ext with (key := fun x => index_of x r).
    + intros a b Ha Hb Hlt. apply filter_In in Ha, Hb.
      cbn [index_of].
      destruct (text_eqb a w); [now destruct Ha|].
      destruct (text_eqb b w); [now destruct Hb|]. lia.
    + now apply increasing_filter.
  - rewrite Forall_forall. intros x Hx. apply filter_In in Hx.
    cbn [index_of]. rewrite text_eqb_refl.
    destruct (text_eqb x w); [now destruct Hx|]. lia.
Qed.

(** ** [np.argsort] on the first indices *)

Lemma in_combine_seq (l : list nat) :
  forall start k i,
    In (k, i) (combine l (seq start (length l)))
    <-> (start <= i < start + length l /\ nth (i - start) l 0 = k).
Proof.
  induction l as [|a l IH]; intros start k i; cbn [length seq combine In].
  - split; [contradiction | lia].
  - rewrite IH. split.
    + intros [E|[H1 H2]].
      * injection E as <- <-. rewrite Nat.sub_diag. cbn. lia.
      * split; [lia|].
        replace (i - start) with (S (i - S start)) by lia. exact H2.
    + intros [H1 H2]. destruct (Nat.eq_dec i start) as [->|Hne].
      * left. rewrite Nat.sub_diag in H2. cbn in H2. now subst.
      * right. split; [lia|].
        replace (i - start) with (S (i - S start)) in H2 by lia. exact H2.
Qed.

Lemma map_fst_combine_seq (l : list nat) :
  forall start, map fst (combine l (seq start (length l))) = l.
Proof.
  induction l as [|a l IH]; intros start; cbn; [reflexivity|].
  now rewrite IH.
Qed.

Lemma sorted_keys_increasing (l : list (nat * nat)) :
  NoDup (map fst l) ->
  StronglySorted (fun p q => key_leb p q = true) l ->
  increasing fst l.
Proof.
  unfold increasing. induction l as [|p l IH]; intros Hnd Hs; [constructor|].
  apply StronglySorted_inv in Hs. destruct Hs as [Hl Hp].
  cbn [map] in Hnd. apply NoDup_cons_iff in Hnd. destruct Hnd as [Hnotin Hnd].
  constructor; [now apply IH|].
  rewrite Forall_forall in *. intros q Hq.
  specialize (Hp q Hq). unfold key_leb in Hp. apply Nat.leb_le in Hp.
  assert (fst p <> fst q).
  { intros E. apply Hnotin. rewrite E. now apply in_map. }
  lia.
Qed.

Lemma increasing_map {A B : Type} (key : B -> nat) (key' : A -> nat)
  (h : A -> B) (l : list A) :
  (forall a, In a l -> key (h a) = key' a) ->
  increasing key' l -> increasing key (map h l).
Proof.
  unfold increasing. induction l as [|a l IH]; intros Hk H; [constructor|].
  apply StronglySorted_inv in H. destruct H as [Hl Ha]. cbn [map].
  constructor.
  - apply IH; [|exact Hl]. intros x Hx. apply Hk. now right.
  - rewrite Forall_forall in *. intros y Hy. apply in_map_iff in Hy.
    destruct Hy as (x & <- & Hx).
    rewrite (Hk a (or_introl eq_refl)), (Hk x (or_intror Hx)). now apply Ha.
Qed.

(** Lines 105-107 compute the first occurrences: the distinct values
    of [np.unique], put back in the order of their first index. *)
Lemma unique_argsort_first_occurrences (l : list text) :
  take_at (np_unique l) (argsort (np_unique_index l)) = first_occurrences l.
Proof.
  set (u := np_unique l). set (key := fun w => index_of w l).
  assert (Hinds : np_unique_index l = map key u) by reflexivity.
  assert (Hlen : length (np_unique_index l) = length u)
    by (rewrite Hinds; apply length_map).
  set (pairs := combine (np_unique_index l) (seq 0 (length (np_unique_index l)))).
  set (sorted := sort_by key_leb pairs).
  assert (Hperm : Permutation sorted pairs) by apply sort_by_perm.
  assert (Hpair : forall p, In p sorted ->
            snd p < length u /\ key (nth (snd p) u []) = fst p).
  { intros [k i] Hp. apply (Permutation_in _ Hperm) in Hp.
    apply in_combine_seq in Hp. destruct Hp as [Hi Hk]. cbn [fst snd].
    rewrite Nat.sub_0_r in Hk. split; [lia|].
    rewrite <- Hk, Hinds.
    rewrite (nth_indep _ 0 (key [])) by (rewrite length_map; lia).
    now rewrite map_nth. }
  unfold take_at, argsort. fold pairs. fold sorted. rewrite map_map.
  apply increasing_unique with (key := key).
  - apply increasing_map with (key' := fst).
    + intros p Hp. now apply Hpair.
    + apply sorted_keys_increasing.
      * eapply Permutation_NoDup;
          [apply Permutation_map, Permutation_sym, Hperm|].
        unfold pairs. rewrite map_fst_combine_seq, Hinds.
        assert (Hu : NoDup u) by apply np_unique_NoDup.
        assert (Hin : forall x, In x u -> In x l)
          by (intros x; apply np_unique_In).
        clear -Hu Hin. induction Hu as [|x u Hx Hu IH]; [constructor|].
        cbn [map]. constructor.
        -- intros H. apply in_map_iff in H. destruct H as (y & E & Hy).
           assert (y = x).
           { apply (index_of_inj l); [apply Hin; now right | exact E]. }
           subst y. contradiction.
        -- apply IH. intros y Hy. apply Hin. now right.
      * apply sort_by_sorted; [exact key_leb_total | exact key_leb_trans].
  - apply first_occurrences_increasing.
  - intros x. rewrite first_occurrences_In, <- (np_unique_In x l).
    fold u. rewrite in_map_iff. split.
    + intros (p & <- & Hp). apply nth_In. now apply Hpair.
    + intros Hx. destruct (In_nth u x [] Hx) as (i & Hi & E).
      exists (nth i (np_unique_index l) 0, i). cbn [snd]. split; [exact E|].
      apply (Permutation_in _ (Permutation_sym Hperm)).
      apply in_combine_seq. rewrite Nat.sub_0_r. split; [lia | reflexivity].
Qed.

(** ** Parameter extraction *)

(** C6, as stated, fails: in [a*par1 + par2*par1] the word [a] is a
    parameter too, so the extracted sequence is not [[par1, par2]];
    this holds of the bare expression and of the expression followed
    by its line terminator. *)
Lemma pars_of_example_expression :
  let bare := T "a*par1 + par2*par1" in
  let terminated := T "a*par1 + par2*par1" ++ [nl] in
  extract_pars (sub_func_names_of bare) bare <> [T "par1"; T "par2"]
  /\ extract_pars (sub_func_names_of terminated) terminated
     <> [T "par1"; T "par2"]
  /\ extract_pars (sub_func_names_of terminated) terminated
     = [T "a"; T "par1"; T "par2"].
Proof. vm_compute. repeat split; try discriminate. Qed.

(** C6, amended.  The extracted parameters are the kept tokens (no
    number, not [e] or [E], no function name), without duplicates, each
    at the place of its first occurrence, that is in increasing order
    of first index; on [a*par1 + par2*par1], taken from a terminated
    line, they are [[a, par1, par2]], with [norm] in front for the
    additive model. *)
Theorem extract_pars_first_occurrences :
  (forall sub_func_names func_expr,
     let kept := filter (is_par sub_func_names) (words_of func_expr) in
     let pars := extract_pars sub_func_names func_expr in
     NoDup pars
     /\ pars = first_occurrences kept
     /\ (forall w, In w pars <-> In w kept)
     /\ increasing (fun w => index_of w kept) pars)
  /\ let line := T "mdefine m a*par1 + par2*par1" ++ [nl] in
     extract_pars (sub_func_names_of (func_expr_of line)) (func_expr_of line)
     = [T "a"; T "par1"; T "par2"]
     /\ option_map em_pars (converted line)
        = Some [T "norm"; T "a"; T "par1"; T "par2"].
Proof.
  split.
  - intros names e kept pars.
    assert (E : pars = first_occurrences kept)
      by apply unique_argsort_first_occurrences.
    rewrite E. split; [apply first_occurrences_NoDup|].
    split; [reflexivity|].
    split; [intros w; apply first_occurrences_In|].
    apply first_occurrences_increasing.
  - vm_compute. split; reflexivity.
Qed.

(** ** Calls of registered additive models *)

(** The two lines of the example, run through the whole conversion. *)
Example foo_then_bar :
  let r := convert_mdefine_file additive_functions
             [T "mdefine foo a*e" ++ [nl];
              T "mdefine bar foo(par_a) : mul" ++ [nl]] in
  outcome r = Ok tt
  /\ closed (out r) = true
  /\ registry r = additive_functions ++ [T "foo"]
  /\ option_map em_return
       (match snd (interpret_line (additive_functions ++ [T "foo"])
                     (T "mdefine bar foo(par_a) : mul" ++ [nl])) with
        | Ok em => Some em
        | _ => None
        end)
     = Some (T "eval_fun2(&foo,lo,hi, [1, par_a]) ").
Proof. vm_compute. repeat split; reflexivity. Qed.

(** * Further properties of the code *)

(** ** Splitting and joining *)

Lemma split_by_nonempty (p : ascii -> bool) (s : text) : split_by p s <> [].
Proof.
  destruct s as [|c r]; cbn [split_by]; [discriminate|].
  destruct (p c); [discriminate|]. destruct (split_by p r); discriminate.
Qed.

Lemma split_by_app (p : ascii -> bool) (a b : text) (c : ascii) :
  p c = true ->
  split_by p (a ++ c :: b) = split_by p a ++ split_by p b.
Proof.
  intros Hc. induction a as [|x a IH]; cbn [app split_by].
  - now rewrite Hc.
  - destruct (p x); [now rewrite IH|].
    rewrite IH. destruct (split_by p a) as [|w ws] eqn:E; [|reflexivity].
    now apply split_by_nonempty in E.
Qed.

Lemma split_by_none (p : ascii -> bool) (s : text) :
  forallb (fun x => negb (p x)) s = true -> split_by p s = [s].
Proof.
  induction s as [|c r IH]; cbn [forallb split_by]; [reflexivity|].
  intros H. apply andb_prop in H. destruct H as [Hc Hr].
  apply negb_true_iff in Hc. rewrite Hc, (IH Hr). reflexivity.
Qed.

Lemma join_cons (sep w : text) (ws : list text) :
  ws <> [] -> join sep (w :: ws) = w ++ sep ++ join sep ws.
Proof.
  destruct ws; [congruence | reflexivity].
Qed.

(** [sep.join(s.split(sep))] is [s] again. *)
Lemma join_split_on (sep : ascii) (s : text) :
  join [sep] (split_on sep s) = s.
Proof.
  unfold split_on. induction s as [|c r IH]; cbn [split_by]; [reflexivity|].
  destruct (Ascii.eqb sep c) eqn:E.
  - apply Ascii.eqb_eq in E. subst c.
    rewrite join_cons by apply split_by_nonempty. now rewrite IH.
  - destruct (split_by (Ascii.eqb sep) r) as [|w ws] eqn:Es.
    + now apply split_by_nonempty in Es.
    + destruct ws as [|w' ws'].
      * cbn [join] in *. now rewrite IH.
      * change (join [sep] ((c :: w) :: w' :: ws'))
          with (c :: join [sep] (w :: w' :: ws')).
        now rewrite IH.
Qed.

Lemma split_on_none (sep : ascii) (s : text) :
  without sep s = true -> split_on sep s = [s].
Proof. apply split_by_none. Qed.

Lemma split_on_app (sep : ascii) (a b : text) :
  split_on sep (a ++ sep :: b) = split_on sep a ++ split_on sep b.
Proof. apply split_by_app, Ascii.eqb_refl. Qed.

Lemma without_app (c : ascii) (a b : text) :
  without c (a ++ b) = without c a && without c b.
Proof. apply forallb_app. Qed.

(** ** The fields of a line *)

(** X1.  In a line [kw name expr], or [kw name expr:type], whose first
    two fields hold no blank and where only the written colon occurs,
    the function name is [name], the expression is [expr] exactly as
    written, blanks included, and the type is [add] without a colon and
    the stripped [type] with one. *)
Theorem line_fields (kw name expr : text) (type : option text) :
  without " " kw = true -> without " " name = true ->
  without ":" kw = true -> without ":" name = true ->
  without ":" expr = true ->
  match type with Some t => without ":" t = true | None => True end ->
  let line := kw ++ T " " ++ name ++ T " " ++ expr
              ++ match type with Some t => T ":" ++ t | None => [] end in
  nth_error (split_on " " line) 1 = Some name
  /\ func_expr_of line = expr
  /\ mtype_of line = match type with Some t => strip t | None => T "add" end.
Proof.
  intros Hk Hn Hkc Hnc Hec Ht line.
  set (pre := kw ++ T " " ++ name ++ T " " ++ expr).
  assert (Hpre : without ":" pre = true).
  { unfold pre. rewrite !without_app, Hkc, Hnc, Hec. reflexivity. }
  assert (Hsp : forall tail, split_on " " (pre ++ tail)
                 = [kw; name] ++ split_on " " (expr ++ tail)).
  { intros tail. unfold pre. cbn [T list_ascii_of_string].
    rewrite <- !app_assoc. cbn [app].
    rewrite split_on_app, (split_on_none _ _ Hk).
    rewrite split_on_app, (split_on_none _ _ Hn). reflexivity. }
  assert (Hcol : split_on ":" line
                 = pre :: match type with Some t => [t] | None => [] end).
  { unfold line. fold pre. destruct type as [t|].
    - replace (kw ++ T " " ++ name ++ T " " ++ expr ++ T ":" ++ t)
        with (pre ++ ":"%char :: t)
        by (unfold pre; now rewrite <- !app_assoc).
      rewrite split_on_app, (split_on_none _ _ Hpre), (split_on_none _ _ Ht).
      reflexivity.
    - replace (kw ++ T " " ++ name ++ T " " ++ expr ++ [])
        with pre by (unfold pre; now rewrite app_nil_r).
      now rewrite (split_on_none _ _ Hpre). }
  split; [|split].
  - unfold line.
    replace (kw ++ T " " ++ name ++ T " " ++ expr
             ++ match type with Some t => T ":" ++ t | None => [] end)
      with (pre ++ match type with Some t => T ":" ++ t | None => [] end)
      by (unfold pre; now rewrite <- !app_assoc).
    rewrite Hsp. reflexivity.
  - unfold func_expr_of. rewrite Hcol. cbn [hd].
    rewrite <- (app_nil_r pre), Hsp. cbn [app skipn].
    rewrite app_nil_r. apply (join_split_on " ").
  - unfold mtype_of. rewrite Hcol. destruct type; reflexivity.
Qed.

Lemma line_fields_witness :
  let line := T "mdefine absorb exp(-tau * e) + 1: mul " in
  nth_error (split_on " " line) 1 = Some (T "absorb")
  /\ func_expr_of line = T "exp(-tau * e) + 1"
  /\ mtype_of line = strip (T " mul ").
Proof.
  apply (line_fields (T "mdefine") (T "absorb") (T "exp(-tau * e) + 1")
           (Some (T " mul ")));
    reflexivity.
Defined.

(** X2.  A line without a blank has no second field: [interpret_line]
    raises [IndexError] on line 42 and the registry is as it was. *)
Theorem line_without_blank_raises (additive : list text) (line : text) :
  without " " line = true ->
  interpret_line additive line = (additive, Raise IndexError).
Proof.
  intros H. unfold interpret_line. rewrite (split_on_none _ _ H). reflexivity.
Qed.

Lemma line_without_blank_raises_witness :
  interpret_line additive_functions (T "mdefine" ++ [nl])
  = (additive_functions, Raise IndexError).
Proof.
  apply (line_without_blank_raises additive_functions (T "mdefine" ++ [nl])).
  reflexivity.
Defined.

(** ** The default output name *)

(** X3.  For an input name [base.ext], where [ext] holds no dot, the
    default output name is [base.sl]; dots of [base] are kept. *)
Theorem default_output_name_suffix (base ext : text) :
  without "." ext = true ->
  default_output_name (base ++ T "." ++ ext) = base ++ T ".sl".
Proof.
  intros H. unfold default_output_name. cbn [T list_ascii_of_string app].
  rewrite split_on_app, (split_on_none _ _ H), removelast_last.
  now rewrite (join_split_on "." base).
Qed.

Lemma default_output_name_suffix_witness :
  default_output_name (T "fits/model.v2" ++ T "." ++ T "xcm")
  = T "fits/model.v2" ++ T ".sl".
Proof.
  apply (default_output_name_suffix (T "fits/model.v2") (T "xcm")).
  reflexivity.
Defined.

(** X4.  An input name without any dot loses the whole name: the
    default output name is [.sl]. *)
Theorem default_output_name_no_dot (input_xcm_file : text) :
  without "." input_xcm_file = true ->
  file_names [T "parse_mdefine.py"; input_xcm_file]
  = Ok (input_xcm_file, T ".sl").
Proof.
  intros H. unfold file_names, default_output_name. cbn [nth_error].
  rewrite (split_on_none _ _ H). reflexivity.
Qed.

Lemma default_output_name_no_dot_witness :
  file_names [T "parse_mdefine.py"; T "models"] = Ok (T "models", T ".sl").
Proof.
  apply (default_output_name_no_dot (T "models")). reflexivity.
Defined.

(** ** Bracket scanning at its edges *)

(** X5.  When the text never closes the bracket that is open (the
    depth, started at 1, stays positive over the whole text), the scan
    reads past the end and raises [IndexError]. *)
Theorem scan_brackets_unclosed (s : text) :
  (forall k, (0 < 1 + depth (firstn k s))%Z) ->
  scan_brackets s 1 0 = Raise IndexError.
Proof.
  assert (G : forall t level i0,
             0 < level ->
             (forall k, (0 < Z.of_nat level + depth (firstn k t))%Z) ->
             scan_brackets t level i0 = Raise IndexError).
  { induction t as [|c r IH]; intros level i0 Hl H;
      destruct level as [|below]; try lia; cbn [scan_brackets];
      [reflexivity|].
    assert (Hstep : forall k,
               depth (firstn (S k) (c :: r))
               = (depth_step c + depth (firstn k r))%Z)
      by (intros; apply depth_firstn_S).
    destruct (char_cases c) as [(Eo & Hd) | [(Eo & Ec & Hd) | (Eo & Ec & Hd)]];
      rewrite Eo, ?Ec.
    - apply IH; [lia|]. intros k. specialize (H (S k)).
      rewrite Hstep, Hd in H. lia.
    - assert (H0 := H 1). rewrite Hstep, Hd in H0. cbn [firstn depth] in H0.
      apply IH; [lia|]. intros k. specialize (H (S k)).
      rewrite Hstep, Hd in H. lia.
    - apply IH; [lia|]. intros k. specialize (H (S k)).
      rewrite Hstep, Hd in H. lia. }
  intros H. apply G; [lia | exact H].
Qed.

Lemma depth_no_paren (s : text) : no_paren s = true -> depth s = 0%Z.
Proof.
  unfold no_paren, without. rewrite andb_true_iff, !forallb_forall.
  intros [Ho Hc]. induction s as [|c r IH]; [reflexivity|].
  cbn [depth]. rewrite IH.
  - destruct (char_cases c) as [(Eo & Hd) | [(Eo & Ec & Hd) | (Eo & Ec & Hd)]];
      rewrite Hd; try lia.
    + specialize (Ho c (or_introl eq_refl)).
      rewrite Ascii.eqb_sym, Eo in Ho. discriminate.
    + specialize (Hc c (or_introl eq_refl)).
      rewrite Ascii.eqb_sym, Ec in Hc. discriminate.
  - intros x Hx. apply Ho. now right.
  - intros x Hx. apply Hc. now right.
Qed.

Lemma scan_brackets_unclosed_witness :
  scan_brackets (T "a,(b)") 1 0 = Raise IndexError.
Proof.
  apply (scan_brackets_unclosed (T "a,(b)")).
  intros k. do 6 (destruct k as [|k]; [vm_compute; reflexivity|]).
  vm_compute. reflexivity.
Defined.

Lemma scan_brackets_app (a b : text) :
  forall level i0 i,
    scan_brackets a level i0 = Ok i -> scan_brackets (a ++ b) level i0 = Ok i.
Proof.
  induction a as [|c r IH]; intros level i0 i H; destruct level as [|below];
    cbn [scan_brackets app] in *; try discriminate.
  - destruct b; exact H.
  - exact H.
  - destruct (Ascii.eqb c lparen); [|destruct (Ascii.eqb c rparen)];
      now apply IH.
Qed.

Lemma scan_brackets_past_args (args rest : text) :
  balanced args = true ->
  scan_brackets (args ++ rparen :: rest) 1 0 = Ok (S (length args)).
Proof.
  intros Hb. apply balanced_from_depth in Hb. destruct Hb as [Htot Hpre].
  cbn [Z.of_nat] in Htot, Hpre.
  assert (Hrp : depth_step rparen = (-1)%Z) by reflexivity.
  change (args ++ rparen :: rest) with (args ++ [rparen] ++ rest).
  rewrite app_assoc. apply scan_brackets_app.
  assert (Hd : forall j, j <= length args ->
             depth (firstn j (args ++ [rparen])) = depth (firstn j args)).
  { intros j Hj. rewrite firstn_app.
    replace (j - length args) with 0 by lia.
    cbn [firstn]. now rewrite app_nil_r. }
  assert (Hfull : depth (args ++ [rparen]) = (-1)%Z).
  { rewrite depth_app. cbn [depth]. rewrite Hrp. lia. }
  destruct (scan_brackets_first_zero (args ++ [rparen]) 1 0)
    as (k & Hs & Hk & Hz & Hm & _); [lia|].
  rewrite Nat.add_0_l in Hs. rewrite Hs. f_equal.
  rewrite length_app in Hk. cbn [length] in Hk.
  destruct (Nat.lt_trichotomy k (S (length args))) as [Hlt|[->|Hgt]].
  - rewrite Hd in Hz by lia. specialize (Hpre k). lia.
  - reflexivity.
  - lia.
Qed.

(** X6.  After balanced arguments the scan stops just past the next
    closing parenthesis, whatever follows it. *)
Theorem scan_brackets_balanced_args (args rest : text) :
  balanced args = true ->
  scan_brackets (args ++ rparen :: rest) 1 0 = Ok (S (length args)).
Proof. apply scan_brackets_past_args. Qed.

Lemma scan_brackets_balanced_args_witness :
  scan_brackets (T "a,(b-c)" ++ rparen :: T "+min(d") 1 0 = Ok 8.
Proof.
  apply (scan_brackets_balanced_args (T "a,(b-c)") (T "+min(d")).
  reflexivity.
Defined.

(** ** Finding a call *)

Lemma last_opt_cons (p : option ascii) (c : ascii) (s : text) :
  last_opt p (c :: s) = last_opt (Some c) s.
Proof.
  unfold last_opt. cbn [rev]. destruct (rev s); reflexivity.
Qed.

Lemma last_opt_snoc (p : option ascii) (s : text) (d : ascii) :
  last_opt p (s ++ [d]) = Some d.
Proof.
  unfold last_opt. rewrite rev_app_distr. reflexivity.
Qed.

Lemma is_prefix_self (n r : text) : is_prefix n (n ++ r) = true.
Proof.
  induction n as [|x n IH]; cbn [is_prefix app]; [reflexivity|].
  now rewrite Ascii.eqb_refl, IH.
Qed.

Lemma all_word_last (n : text) (p : option ascii) :
  all_word n = true -> n <> [] -> wordb (last_opt p n) = true.
Proof.
  intros Hw Hn. destruct (exists_last Hn) as (n' & d & ->).
  rewrite last_opt_snoc. unfold all_word in Hw.
  rewrite forallb_app in Hw. apply andb_prop in Hw. destruct Hw as [_ Hd].
  cbn in Hd. now rewrite andb_true_r in Hd.
Qed.

(** The word matches where it stands before an opening parenthesis and
    after a character that is no word character. *)
Lemma match_here_call (name rest : text) (prev : option ascii) :
  all_word name = true -> name <> [] -> wordb prev = false ->
  match_here name prev (name ++ lparen :: rest) = true.
Proof.
  intros Hw Hn Hp. unfold match_here.
  rewrite is_prefix_self, skipn_app, skipn_all, Nat.sub_diag.
  cbn [skipn app hd_error]. unfold boundary.
  rewrite (all_word_last name prev Hw Hn), Hp.
  destruct name as [|x n]; [congruence|]. cbn [app hd_error wordb].
  unfold all_word in Hw. cbn [forallb] in Hw. apply andb_prop in Hw.
  rewrite (proj1 Hw). reflexivity.
Qed.

Lemma is_prefix_before_nonword (name s x : text) (d : ascii) :
  all_word name = true -> is_word d = false ->
  is_prefix name (s ++ d :: x) = is_prefix name (s ++ [d])
  /\ (is_prefix name (s ++ [d]) = true -> length name <= length s).
Proof.
  intros Hw Hd. revert s. induction name as [|c n IH]; intros s.
  - split; [destruct s; reflexivity | cbn; lia].
  - unfold all_word in Hw. cbn [forallb] in Hw. apply andb_prop in Hw.
    destruct Hw as [Hc Hn]. specialize (IH Hn).
    destruct s as [|y s]; cbn [app is_prefix].
    + assert (E : Ascii.eqb c d = false).
      { destruct (Ascii.eqb c d) eqn:E; [|reflexivity].
        apply Ascii.eqb_eq in E. subst d. congruence. }
      rewrite E. split; [reflexivity | discriminate].
    + destruct (IH s) as [IH1 IH2]. rewrite IH1. split; [reflexivity|].
      intros H. apply andb_prop in H. destruct H as [_ H].
      specialize (IH2 H). cbn [length]. lia.
Qed.

Lemma match_here_before_nonword (name s x : text) (d : ascii) (prev : option ascii) :
  all_word name = true -> is_word d = false ->
  match_here name prev (s ++ d :: x) = match_here name prev (s ++ [d]).
Proof.
  intros Hw Hd. unfold match_here.
  destruct (is_prefix_before_nonword name s x d Hw Hd) as [E Hlen].
  rewrite E. destruct (is_prefix name (s ++ [d])) eqn:P; [|reflexivity].
  specialize (Hlen eq_refl). cbn [andb].
  assert (Hhd : forall a : text, hd_error (a ++ d :: x) = hd_error (a ++ [d]))
    by (intros [|? ?]; reflexivity).
  rewrite Hhd. rewrite !skipn_app.
  replace (length name - length s) with 0 by lia. cbn [skipn].
  now rewrite Hhd.
Qed.

Lemma search_from_before_nonword (name s x : text) (d : ascii) :
  all_word name = true -> is_word d = false ->
  forall prev pos,
    search_from name prev (s ++ [d]) pos = None ->
    search_from name prev (s ++ d :: x) pos
    = search_from name (Some d) x (pos + S (length s)).
Proof.
  intros Hw Hd. induction s as [|y s IH]; intros prev pos H.
  - cbn [app] in *.
    change (search_from name prev [d] pos)
      with (if match_here name prev [d] then Some (pos, pos + length name)
            else search_from name (Some d) [] (S pos)) in H.
    change (search_from name prev (d :: x) pos)
      with (if match_here name prev (d :: x) then Some (pos, pos + length name)
            else search_from name (Some d) x (S pos)).
    pose proof (match_here_before_nonword name [] x d prev Hw Hd) as E.
    cbn [app] in E. rewrite E.
    destruct (match_here name prev [d]); [discriminate|].
    f_equal. cbn [length]. lia.
  - cbn [app] in *.
    change (search_from name prev (y :: s ++ [d]) pos)
      with (if match_here name prev (y :: s ++ [d])
            then Some (pos, pos + length name)
            else search_from name (Some y) (s ++ [d]) (S pos)) in H.
    change (search_from name prev (y :: s ++ d :: x) pos)
      with (if match_here name prev (y :: s ++ d :: x)
            then Some (pos, pos + length name)
            else search_from name (Some y) (s ++ d :: x) (S pos)).
    pose proof (match_here_before_nonword name (y :: s) x d prev Hw Hd) as E.
    cbn [app] in E. rewrite E.
    destruct (match_here name prev (y :: s ++ [d])); [discriminate|].
    rewrite (IH _ _ H). f_equal. cbn [length]. lia.
Qed.

Lemma search_from_hit (name s : text) (prev : option ascii) (pos : nat) :
  match_here name prev s = true ->
  search_from name prev s pos = Some (pos, pos + length name).
Proof.
  intros H. destruct s; cbn [search_from]; now rewrite H.
Qed.

(** A call [name(] that follows a text without the word, ending in no
    word character, is the first match of the search. *)
Lemma search_word_call (name pre rest : text) :
  all_word name = true -> name <> [] ->
  wordb (last_opt None pre) = false ->
  search_word name pre = None ->
  search_word name (pre ++ name ++ lparen :: rest)
  = Some (length pre, length pre + length name).
Proof.
  intros Hw Hn Hlast Hnone. unfold search_word in *.
  destruct pre as [|c pre' _] using rev_ind.
  - cbn [app length].
    apply search_from_hit, match_here_call; auto.
  - rewrite last_opt_snoc in Hlast. cbn [wordb] in Hlast.
    rewrite <- app_assoc. cbn [app].
    rewrite (search_from_before_nonword name pre' _ c Hw Hlast None 0 Hnone).
    rewrite length_app. cbn [length].
    rewrite (search_from_hit name _ (Some c) _
               (match_here_call name rest (Some c) Hw Hn Hlast)).
    f_equal. f_equal; lia.
Qed.

(** ** Rewriting one call *)

(** The loop on a call with balanced arguments: the text before the
    call is kept, the name and its parenthesis give way to the opening
    text, the closing parenthesis becomes [])], and the loop goes on
    with the arguments and what follows them. *)
Lemma rewrite_calls_call (name opening pre args rest : text) :
  all_word name = true -> name <> [] ->
  wordb (last_opt None pre) = false ->
  search_word name pre = None ->
  balanced args = true ->
  rewrite_calls name opening (pre ++ name ++ lparen :: args ++ rparen :: rest)
  = (r <- rewrite_calls name opening (args ++ T "])" ++ rest) ;;
     Ok (pre ++ opening ++ r)).
Proof.
  intros Hw Hn Hlast Hnone Hb.
  rewrite (rewrite_calls_unfold name opening _ _ _ Hn
             (search_word_call name pre _ Hw Hn Hlast Hnone)).
  assert (Hskip : skipn (length pre + length name)
                    (pre ++ name ++ lparen :: args ++ rparen :: rest)
                  = lparen :: args ++ rparen :: rest).
  { rewrite app_assoc, skipn_app, length_app.
    rewrite skipn_all2 by (rewrite length_app; lia).
    replace (length pre + length name - (length pre + length name)) with 0
      by lia.
    reflexivity. }
  rewrite Hskip. cbn [search_paren]. rewrite Ascii.eqb_refl. cbn [skipn].
  rewrite (scan_brackets_past_args args rest Hb). cbn [bind].
  assert (Hsp : spliced (S (length args)) (args ++ rparen :: rest)
                = args ++ T "])" ++ rest).
  { unfold spliced. replace (S (length args) - 1) with (length args) by lia.
    rewrite firstn_app, firstn_all, Nat.sub_diag. cbn [firstn].
    rewrite app_nil_r. f_equal. f_equal.
    change (args ++ rparen :: rest) with (args ++ [rparen] ++ rest).
    rewrite app_assoc, skipn_app.
    rewrite skipn_all2 by (rewrite length_app; cbn; lia).
    rewrite length_app. cbn [length].
    replace (S (length args) - (length args + 1)) with 0 by lia.
    reflexivity. }
  rewrite Hsp. rewrite firstn_app, firstn_all, Nat.sub_diag. cbn [firstn].
  now rewrite app_nil_r.
Qed.

(** X7.  The min/max pass on an expression whose only [min] is one
    call with balanced arguments, the text before it ending in no word
    character, and which holds no [max]: the arguments are put in
    square brackets and nothing else changes. *)
Theorem multi_arg_single_min (pre args rest : text) :
  wordb (last_opt None pre) = false ->
  search_word (T "min") pre = None ->
  balanced args = true ->
  search_word (T "min") (args ++ T "])" ++ rest) = None ->
  search_word (T "max") (pre ++ T "min([" ++ args ++ T "])" ++ rest) = None ->
  multi_arg (pre ++ T "min(" ++ args ++ T ")" ++ rest)
  = Ok (pre ++ T "min([" ++ args ++ T "])" ++ rest).
Proof.
  intros Hlast Hpre Hb Hmin Hmax. unfold multi_arg, multi_arg_pass.
  change (pre ++ T "min(" ++ args ++ T ")" ++ rest)
    with (pre ++ T "min" ++ lparen :: args ++ rparen :: rest).
  rewrite (rewrite_calls_call (T "min") _ pre args rest eq_refl
             ltac:(discriminate) Hlast Hpre Hb).
  rewrite (rewrite_calls_no_match _ _ _ Hmin). cbn [bind].
  rewrite <- app_assoc.
  change ((T "min" ++ T "([") ++ args ++ T "])" ++ rest)
    with (T "min([" ++ args ++ T "])" ++ rest).
  apply rewrite_calls_no_match, Hmax.
Qed.

Lemma multi_arg_single_min_witness :
  multi_arg (T "2*" ++ T "min(" ++ T "a,(b+c)" ++ T ")" ++ T "+d")
  = Ok (T "2*" ++ T "min([" ++ T "a,(b+c)" ++ T "])" ++ T "+d").
Proof.
  apply (multi_arg_single_min (T "2*") (T "a,(b+c)") (T "+d")); reflexivity.
Defined.

(** X8.  The sub-function pass on a call of a function outside the
    catalogue, with balanced arguments, after a text without the name
    that ends in no word character: the call opens with
    [eval_fun2(&name,lo,hi, []], followed by [1, ] exactly when the
    name is in the registry, its closing parenthesis becomes [])], and
    the pass goes on inside the arguments and behind them. *)
Theorem wrap_pass_call (additive : list text) (name pre args rest : text) :
  all_word name = true -> name <> [] ->
  mem name special_functions = false ->
  wordb (last_opt None pre) = false ->
  search_word name pre = None ->
  balanced args = true ->
  wrap_pass additive name (pre ++ name ++ T "(" ++ args ++ T ")" ++ rest)
  = (r <- wrap_pass additive name (args ++ T "])" ++ rest) ;;
     Ok (pre ++ T "eval_fun2(&" ++ name ++ T ",lo,hi, ["
         ++ (if mem name additive then T "1, " else []) ++ r)).
Proof.
  intros Hw Hn Hsp Hlast Hpre Hb. unfold wrap_pass. rewrite Hsp.
  change (pre ++ name ++ T "(" ++ args ++ T ")" ++ rest)
    with (pre ++ name ++ lparen :: args ++ rparen :: rest).
  rewrite (rewrite_calls_call name _ pre args rest Hw Hn Hlast Hpre Hb).
  destruct (rewrite_calls name (eval_opening additive name) _); cbn [bind];
    try reflexivity.
  unfold eval_opening. now rewrite <- !app_assoc.
Qed.

Lemma wrap_pass_call_witness :
  wrap_pass additive_functions (T "powerlaw")
    (T "k*" ++ T "powerlaw" ++ T "(" ++ T "g" ++ T ")" ++ T "*w")
  = Ok (T "k*eval_fun2(&powerlaw,lo,hi, [1, g])*w").
Proof.
  etransitivity.
  - apply (wrap_pass_call additive_functions (T "powerlaw") (T "k*") (T "g")
             (T "*w")); try reflexivity. discriminate.
  - vm_compute. reflexivity.
Defined.

(** X9.  An expression all of whose function names are in the
    catalogue leaves the sub-function stage as it entered it. *)
Theorem wrap_subfunctions_only_special
  (additive sub_func_names : list text) (func_expr : text) :
  forallb (fun name => mem name special_functions) sub_func_names = true ->
  wrap_subfunctions additive sub_func_names func_expr = Ok func_expr.
Proof.
  intros H. unfold wrap_subfunctions.
  assert (G : forall names,
             (forall n, In n names -> mem n special_functions = true) ->
             wrap_all additive names func_expr = Ok func_expr).
  { induction names as [|n names IH]; intros Hn; cbn [wrap_all];
      [reflexivity|].
    unfold wrap_pass. rewrite (Hn n (or_introl eq_refl)). cbn [bind].
    apply IH. intros m Hm. apply Hn. now right. }
  apply G. intros n Hn. apply (proj1 (np_unique_In n sub_func_names)) in Hn.
  rewrite forallb_forall in H. now apply H.
Qed.

Lemma wrap_subfunctions_only_special_witness :
  wrap_subfunctions additive_functions
    (sub_func_names_of (T "exp(-a*sqrt(e))*min([b,1])" ++ [nl]))
    (T "exp(-a*sqrt(e))*min([b,1])" ++ [nl])
  = Ok (T "exp(-a*sqrt(e))*min([b,1])" ++ [nl]).
Proof.
  apply (wrap_subfunctions_only_special additive_functions).
  reflexivity.
Defined.

(** ** Function names *)

Lemma split_by_pieces (p : ascii -> bool) (s : text) (w : text) :
  In w (split_by p s) -> forallb (fun c => negb (p c)) w = true.
Proof.
  revert w. induction s as [|c r IH]; intros w; cbn [split_by].
  - intros [<-|[]]. reflexivity.
  - destruct (p c) eqn:E.
    + intros [<-|H]; [reflexivity | now apply IH].
    + destruct (split_by p r) as [|v vs].
      * intros [<-|[]]. cbn. now rewrite E.
      * intros [<-|H].
        -- cbn [forallb]. rewrite E. cbn. apply IH. now left.
        -- apply IH. now right.
Qed.

Lemma last_piece_In (l : list text) : l <> [] -> In (last_piece l) l.
Proof.
  intros H. destruct (exists_last H) as (l' & x & ->).
  unfold last_piece. rewrite last_last. apply in_or_app. right. now left.
Qed.

Lemma sub_func_names_shape (func_expr name : text) :
  In name (sub_func_names_of func_expr) ->
  name <> [] /\ all_word name = true.
Proof.
  unfold sub_func_names_of. rewrite filter_In, in_map_iff.
  intros [(piece & <- & _) Hne]. split.
  - intros E. rewrite E in Hne. discriminate.
  - pose proof (last_piece_In (re_split_W piece)
                  (split_by_nonempty _ piece)) as Hin.
    apply split_by_pieces in Hin. unfold all_word.
    rewrite forallb_forall in *. intros c Hc. specialize (Hin c Hc).
    now rewrite negb_involutive in Hin.
Qed.

(** X10.  Every function name found in an expression is a non-empty
    run of word characters, so that the pattern built from it on lines
    71 and 118 holds no regular-expression operator. *)
Theorem sub_func_names_are_words (func_expr name : text) :
  In name (sub_func_names_of func_expr) ->
  name <> [] /\ all_word name = true.
Proof. apply sub_func_names_shape. Qed.

Lemma sub_func_names_are_words_witness :
  T "powerlaw" <> [] /\ all_word (T "powerlaw") = true.
Proof.
  apply (sub_func_names_are_words (T "a*powerlaw(g)+exp(2)") (T "powerlaw")).
  vm_compute. left. reflexivity.
Defined.

(** ** Termination *)

Lemma wrap_all_terminates (additive names : list text) :
  (forall n, In n names -> n <> []) ->
  forall func_expr, wrap_all additive names func_expr <> OutOfFuel.
Proof.
  induction names as [|n names IH]; intros Hn e; cbn [wrap_all];
    [discriminate|].
  assert (Hp : wrap_pass additive n e <> OutOfFuel).
  { unfold wrap_pass. destruct (mem n special_functions); [discriminate|].
    apply rewrite_calls_terminates, Hn. now left. }
  destruct (wrap_pass additive n e); cbn [bind]; try congruence.
  apply IH. intros m Hm. apply Hn. now right.
Qed.

(** X11.  The [while] loops of lines 72-91 and 119-143 end on every
    line: [interpret_line] returns or raises, and so does
    [convert_mdefine_file] on every list of lines. *)
Theorem conversion_terminates (additive : list text) :
  (forall line, snd (interpret_line additive line) <> OutOfFuel)
  /\ (forall lines, outcome (convert_mdefine_file additive lines) <> OutOfFuel).
Proof.
  assert (Hline : forall reg line, snd (interpret_line reg line) <> OutOfFuel).
  { intros reg line. unfold interpret_line.
    destruct (nth_error (split_on " " line) 1) as [func_name|]; cbn [snd];
      [|discriminate].
    unfold translate.
    match goal with |- context [rewrite_expr ?r ?e] =>
      assert (Hr : rewrite_expr r e <> OutOfFuel) end.
    { unfold rewrite_expr, multi_arg, multi_arg_pass.
      pose proof (rewrite_calls_terminates (T "min") (T "min" ++ T "([")
                    (func_expr_of line) ltac:(discriminate)) as H1.
      destruct (rewrite_calls (T "min") _ (func_expr_of line)) as [e1| |];
        cbn [bind]; try congruence.
      pose proof (rewrite_calls_terminates (T "max") (T "max" ++ T "([")
                    e1 ltac:(discriminate)) as H2.
      destruct (rewrite_calls (T "max") _ e1) as [e2| |];
        cbn [bind]; try congruence.
      unfold wrap_subfunctions.
      pose proof (wrap_all_terminates
                    (if text_eqb (mtype_of line) (T "add")
                     then additive ++ [func_name] else additive)
                    (np_unique (sub_func_names_of e2))) as H3.
      match goal with |- context [wrap_all ?a ?n ?e] =>
        assert (H4 : wrap_all a n e <> OutOfFuel) end.
      { apply wrap_all_terminates. intros n Hin.
        apply (proj1 (np_unique_In n (sub_func_names_of e2))) in Hin.
        now apply sub_func_names_shape in Hin. }
      destruct (wrap_all _ _ e2); cbn [bind]; congruence. }
    destruct (rewrite_expr _ _) as [[fe pars]| |]; cbn [bind];
      try congruence.
    destruct (text_eqb (mtype_of line) (T "add")); discriminate. }
  split; [intros line; apply Hline|].
  intros lines. unfold convert_mdefine_file.
  assert (G : forall ls reg o log,
             snd (convert_lines reg o log ls) <> OutOfFuel).
  { induction ls as [|l ls IH]; intros reg o log; cbn [convert_lines];
      [discriminate|].
    destruct (split_ws l) as [|first rest]; [apply IH|].
    destruct (text_eqb first (T "#")); [apply IH|].
    destruct (text_eqb first (T "mdefine")); [|apply IH].
    specialize (Hline reg l).
    destruct (interpret_line reg l) as [reg' [em|e|]]; cbn [snd] in *;
      [apply IH | discriminate | congruence]. }
  specialize (G lines additive (write (Handle [] false) header) []).
  destruct (convert_lines additive _ [] lines) as [[[reg o] log] [[]|e|]];
    cbn [snd outcome] in *; congruence.
Qed.

(** ** The energy symbol *)

Lemma sub_energy_from_prev (repl s : text) (p q : option ascii) :
  wordb p = wordb q -> sub_energy_from repl p s = sub_energy_from repl q s.
Proof.
  intros H. destruct s as [|c r]; cbn [sub_energy_from]; [reflexivity|].
  unfold boundary. now rewrite H.
Qed.

Lemma is_word_energy (c : ascii) :
  (Ascii.eqb c "e" || Ascii.eqb c "E")%char = true -> is_word c = true.
Proof.
  intros H. apply orb_prop in H.
  destruct H as [H|H]; apply Ascii.eqb_eq in H; subst c; reflexivity.
Qed.

Lemma sub_energy_from_separator (repl a b : text) (c : ascii) :
  is_word c = false ->
  forall p,
    sub_energy_from repl p (a ++ c :: b)
    = sub_energy_from repl p a ++ c :: sub_energy_from repl None b.
Proof.
  intros Hc. induction a as [|x a IH]; intros p; cbn [app sub_energy_from].
  - destruct ((Ascii.eqb c "e" || Ascii.eqb c "E")%char) eqn:E.
    + apply is_word_energy in E. congruence.
    + cbn [andb]. f_equal. apply sub_energy_from_prev. cbn [wordb]. exact Hc.
  - assert (Hhd : boundary (Some x) (hd_error (a ++ c :: b))
                  = boundary (Some x) (hd_error a)).
    { destruct a; [|reflexivity]. unfold boundary. cbn [app hd_error wordb].
      now rewrite Hc. }
    rewrite Hhd, IH.
    destruct ((Ascii.eqb x "e" || Ascii.eqb x "E")%char
              && boundary p (Some x) && boundary (Some x) (hd_error a));
      [now rewrite <- app_assoc | reflexivity].
Qed.

(** X12.  The energy substitution works token by token: across a
    character that is no word character it is the substitution of the
    two sides, the character staying in between. *)
Theorem sub_energy_separator (repl a b : text) (c : ascii) :
  is_word c = false ->
  sub_energy repl (a ++ c :: b) = sub_energy repl a ++ c :: sub_energy repl b.
Proof.
  intros Hc. unfold sub_energy. now apply sub_energy_from_separator.
Qed.

Lemma sub_energy_separator_witness :
  sub_energy energy_expr (T "e_min" ++ "*"%char :: T "E")
  = sub_energy energy_expr (T "e_min") ++ "*"%char :: sub_energy energy_expr (T "E").
Proof.
  apply (sub_energy_separator energy_expr (T "e_min") (T "E") "*"%char).
  reflexivity.
Defined.

Lemma sub_energy_from_inside_word (repl s : text) :
  all_word s = true ->
  forall p, wordb p = true -> sub_energy_from repl p s = s.
Proof.
  induction s as [|c r IH]; intros Hw p Hp; cbn [sub_energy_from];
    [reflexivity|].
  unfold all_word in Hw. cbn [forallb] in Hw. apply andb_prop in Hw.
  destruct Hw as [Hc Hr].
  unfold boundary at 1. cbn [wordb]. rewrite Hp, Hc. cbn [xorb].
  rewrite andb_false_r. cbn [andb]. f_equal. now apply IH.
Qed.

(** X13.  Of the identifiers, numbers and other runs of word
    characters, the energy substitution replaces [e] and [E] alone; a
    longer run that holds an [e], such as [energy_scale] or [1e3], is
    left as it is. *)
Theorem sub_energy_word (repl w : text) :
  all_word w = true ->
  sub_energy repl w
  = if text_eqb w (T "e") || text_eqb w (T "E") then repl else w.
Proof.
  intros Hw. unfold sub_energy. destruct w as [|c [|d r]].
  - reflexivity.
  - cbn [sub_energy_from hd_error]. unfold all_word in Hw. cbn in Hw.
    rewrite andb_true_r in Hw. unfold boundary. cbn [wordb]. rewrite Hw.
    cbn [xorb andb]. rewrite !andb_true_r.
    cbn [text_eqb T list_ascii_of_string]. rewrite !andb_true_r.
    destruct ((Ascii.eqb c "e" || Ascii.eqb c "E")%char);
      [apply app_nil_r | reflexivity].
  - unfold all_word in Hw. cbn [forallb] in Hw.
    apply andb_prop in Hw. destruct Hw as [Hc Hr].
    assert (Hd : is_word d = true) by (apply andb_prop in Hr; tauto).
    assert (Hstep : sub_energy_from repl None (c :: d :: r)
                    = if (Ascii.eqb c "e" || Ascii.eqb c "E")%char
                         && boundary None (Some c)
                         && boundary (Some c) (Some d)
                      then repl ++ sub_energy_from repl (Some c) (d :: r)
                      else c :: sub_energy_from repl (Some c) (d :: r))
      by reflexivity.
    rewrite Hstep. unfold boundary at 2. cbn [wordb].
    rewrite Hc, Hd. cbn [xorb]. rewrite andb_false_r.
    rewrite (sub_energy_from_inside_word repl (d :: r) Hr (Some c) Hc).
    cbn [text_eqb T list_ascii_of_string]. now rewrite !andb_false_r.
Qed.

Lemma sub_energy_word_witness :
  sub_energy energy_expr (T "energy_scale") = T "energy_scale".
Proof.
  apply (sub_energy_word energy_expr (T "energy_scale")). reflexivity.
Defined.

(** ** What a parameter is *)

(** X14.  A parameter is always a non-empty run of word characters
    that does not start with a digit, is not [e] or [E], and is not one
    of the function names. *)
Theorem extract_pars_shape (sub_func_names : list text) (func_expr w : text) :
  In w (extract_pars sub_func_names func_expr) ->
  w <> [] /\ all_word w = true /\ starts_with_digit w = false
  /\ mem w sub_func_names = false /\ w <> T "e" /\ w <> T "E".
Proof.
  unfold extract_pars. rewrite unique_argsort_first_occurrences.
  rewrite first_occurrences_In, filter_In. unfold words_of.
  rewrite !filter_In. intros [[[Hin Hne] Hdig] Hpar].
  unfold is_par in Hpar. apply andb_prop in Hpar. destruct Hpar as [Hpar HE].
  apply andb_prop in Hpar. destruct Hpar as [Hmem He].
  apply negb_true_iff in Hdig, Hmem, He, HE.
  repeat split.
  - intros E. rewrite E in Hne. discriminate.
  - apply split_by_pieces in Hin. unfold all_word.
    rewrite forallb_forall in *. intros c Hc. specialize (Hin c Hc).
    now rewrite negb_involutive in Hin.
  - exact Hdig.
  - exact Hmem.
  - intros E. apply text_eqb_eq in E. congruence.
  - intros E. apply text_eqb_eq in E. congruence.
Qed.

Lemma extract_pars_shape_witness :
  T "tau" <> [] /\ all_word (T "tau") = true
  /\ starts_with_digit (T "tau") = false
  /\ mem (T "tau") [T "exp"] = false /\ T "tau" <> T "e" /\ T "tau" <> T "E".
Proof.
  apply (extract_pars_shape [T "exp"] (T "1e3*exp(-tau*e)+2") (T "tau")).
  vm_compute. left. reflexivity.
Defined.

(** ** Line wrapping *)

Lemma unspaced_app (a b : text) : unspaced (a ++ b) = unspaced a ++ unspaced b.
Proof. apply filter_app. Qed.

Lemma unspaced_join (sep : text) (l : list text) :
  unspaced (join sep l) = join (unspaced sep) (map unspaced l).
Proof.
  induction l as [|w [|v ws] IH]; try reflexivity.
  change (join sep (w :: v :: ws)) with (w ++ sep ++ join sep (v :: ws)).
  rewrite !unspaced_app, IH. reflexivity.
Qed.

Lemma unspaced_join_split (sep : ascii) (glue s : text) :
  unspaced glue = [sep] ->
  unspaced (join glue (split_on sep s)) = unspaced s.
Proof.
  intros H.
  assert (Hsep : unspaced [sep] = [sep]).
  { assert (Hin : In sep (unspaced glue)) by (rewrite H; now left).
    apply filter_In in Hin. destruct Hin as [_ Hin].
    cbn [unspaced filter]. now rewrite Hin. }
  rewrite unspaced_join, H, <- Hsep, <- unspaced_join.
  now rewrite (join_split_on sep s).
Qed.

(** X15.  Breaking a long expression, declaration or parameter list
    over several lines adds whitespace and nothing else: with the
    whitespace taken out, the text is the one-line text with its
    whitespace taken out. *)
Theorem wrapping_adds_whitespace_only (func_expr : text) (pars : list text) :
  unspaced (break_expr func_expr) = unspaced func_expr
  /\ unspaced (declare_variables pars)
     = unspaced (T "variable " ++ join (T ", ") pars)
  /\ unspaced (par_list pars)
     = unspaced (T "[" ++ [dquote] ++ join ([dquote] ++ T "," ++ [dquote]) pars
                 ++ [dquote] ++ T "]").
Proof.
  split; [|split].
  - unfold break_expr. destruct (72 <? length func_expr); [|reflexivity].
    rewrite (unspaced_join_split "*"%char) by reflexivity.
    apply (unspaced_join_split "+"%char). reflexivity.
  - unfold declare_variables.
    destruct (72 <? length (T "variable " ++ join (T ", ") pars));
      [|reflexivity].
    rewrite !unspaced_app, !unspaced_join. reflexivity.
  - unfold par_list.
    match goal with |- context [if ?b then _ else _] => destruct b end;
      [|reflexivity].
    rewrite !unspaced_app, !unspaced_join. reflexivity.
Qed.

(** ** Whole runs *)

Lemma convert_lines_appends (lines : list text) :
  forall additive o log,
    let r := convert_lines additive o log lines in
    exists added body said,
      fst (fst (fst r)) = additive ++ added
      /\ written (snd (fst (fst r))) = written o ++ body
      /\ closed (snd (fst (fst r))) = closed o
      /\ snd (fst r) = log ++ said.
Proof.
  induction lines as [|l ls IH]; intros additive o log; cbn [convert_lines].
  - exists [], [], []. cbn. now rewrite !app_nil_r.
  - destruct (split_ws l) as [|first rest]; [apply IH|].
    destruct (text_eqb first (T "#")).
    { destruct (IH additive (write o (T "%" ++ l)) log)
        as (added & body & said & H1 & H2 & H3 & H4).
      exists added, ((T "%" ++ l) ++ body), said.
      cbn [write written closed] in H2, H3.
      rewrite H1, H2, H3, H4. now rewrite <- app_assoc. }
    destruct (text_eqb first (T "mdefine")).
    + pose proof (fun w => interpret_line_keeps additive l w) as Hkeep.
      assert (Hreg : exists one, fst (interpret_line additive l) = additive ++ one).
      { unfold interpret_line.
        destruct (nth_error (split_on " " l) 1) as [n|]; cbn [fst].
        - destruct (text_eqb (mtype_of l) (T "add"));
            [exists [n] | exists []]; now rewrite ?app_nil_r.
        - exists []. now rewrite app_nil_r. }
      destruct Hreg as (one & Hone).
      destruct (interpret_line additive l) as [reg [em|e|]]; cbn [fst] in Hone;
        subst reg.
      * destruct (IH (additive ++ one) (write o (em_written em)) log)
          as (added & body & said & H1 & H2 & H3 & H4).
        exists (one ++ added), (em_written em ++ body), said.
        cbn [write written closed] in H2, H3.
        rewrite H1, H2, H3, H4. now rewrite <- !app_assoc.
      * exists one, [], []. cbn. now rewrite !app_nil_r.
      * exists one, [], []. cbn. now rewrite !app_nil_r.
    + destruct (IH additive o (log ++ [failed_to_parse l]))
        as (added & body & said & H1 & H2 & H3 & H4).
      exists added, body, ([failed_to_parse l] ++ said).
      rewrite H1, H2, H3, H4. now rewrite <- app_assoc.
Qed.

(** X16.  A run only appends: the output file starts with the header
    line, the registry starts with the registry it was given, and the
    output file is closed exactly when no line raised. *)
Theorem run_only_appends (additive : list text) (lines : list text) :
  let r := convert_mdefine_file additive lines in
  (exists body, written (out r) = header ++ body)
  /\ (exists added, registry r = additive ++ added)
  /\ (closed (out r) = true <-> outcome r = Ok tt).
Proof.
  intros r. split; [|split].
  - unfold r, convert_mdefine_file.
    destruct (convert_lines_appends lines additive
                (write (Handle [] false) header) [])
      as (added & body & said & _ & H2 & _ & _).
    cbv zeta in H2.
    destruct (convert_lines additive _ [] lines) as [[[reg o] log] [[]|e|]];
      cbn [fst snd out written] in *; exists body; exact H2.
  - unfold r, convert_mdefine_file.
    destruct (convert_lines_appends lines additive
                (write (Handle [] false) header) [])
      as (added & body & said & H1 & _ & _ & _).
    cbv zeta in H1.
    destruct (convert_lines additive _ [] lines) as [[[reg o] log] [[]|e|]];
      cbn [fst snd registry] in *; exists added; exact H1.
  - apply closed_iff_no_exception.
Qed.

(** X17.  Lines are handled one after the other: a run over two lists
    of lines in a row is the run over the first, followed, unless a
    line of the first raised, by the run over the second from the
    registry, output and messages that the first has left. *)
Theorem convert_lines_app (first_lines more_lines : list text) :
  forall additive o log,
    convert_lines additive o log (first_lines ++ more_lines)
    = match convert_lines additive o log first_lines with
      | (additive', o', log', Ok tt) =>
          convert_lines additive' o' log' more_lines
      | failure => failure
      end.
Proof.
  induction first_lines as [|l ls IH]; intros additive o log;
    cbn [app convert_lines]; [reflexivity|].
  destruct (split_ws l) as [|first rest]; [apply IH|].
  destruct (text_eqb first (T "#")); [apply IH|].
  destruct (text_eqb first (T "mdefine")); [|apply IH].
  destruct (interpret_line additive l) as [reg [em|e|]];
    [apply IH | reflexivity | reflexivity].
Qed.

(** X18.  After a run in which no line raised, the registry is the
    given registry followed by the names of the additive definitions
    of the file, one entry per definition, in the order of the lines;
    a name defined twice is entered twice. *)
Theorem registry_of_a_run (additive : list text) (lines : list text) :
  outcome (convert_mdefine_file additive lines) = Ok tt ->
  registry (convert_mdefine_file additive lines)
  = additive ++ added_names lines.
Proof.
  unfold convert_mdefine_file.
  assert (G : forall ls reg o log,
             snd (convert_lines reg o log ls) = Ok tt ->
             fst (fst (fst (convert_lines reg o log ls)))
             = reg ++ added_names ls).
  { induction ls as [|l ls IH]; intros reg o log;
      cbn [convert_lines added_names flat_map].
    - intros _. cbn. now rewrite app_nil_r.
    - fold (added_names ls).
      destruct (split_ws l) as [|first rest]; [apply IH|].
      destruct (text_eqb first (T "#")); cbn [negb andb]; [apply IH|].
      destruct (text_eqb first (T "mdefine")); cbn [andb]; [|apply IH].
      unfold interpret_line.
      destruct (nth_error (split_on " " l) 1) as [n|]; [|discriminate].
      destruct (translate _ n (mtype_of l) (func_expr_of l)) as [em|e|];
        try discriminate.
      intros H. rewrite (IH _ _ _ H).
      destruct (text_eqb (mtype_of l) (T "add")); cbn [app];
        now rewrite <- ?app_assoc. }
  specialize (G lines additive (write (Handle [] false) header) []).
  destruct (convert_lines additive _ [] lines) as [[[reg o] log] [[]|e|]];
    cbn [fst snd outcome registry] in *; try discriminate.
  intros _. now apply G.
Qed.

Lemma registry_of_a_run_witness :
  registry (convert_mdefine_file additive_functions
              [T "mdefine foo a*e" ++ [nl]; T "# note" ++ [nl];
               T "mdefine cut exp(-e/b) : mul" ++ [nl];
               T "mdefine foo b*e" ++ [nl]])
  = additive_functions ++ [T "foo"; T "foo"].
Proof.
  apply (registry_of_a_run additive_functions
           [T "mdefine foo a*e" ++ [nl]; T "# note" ++ [nl];
            T "mdefine cut exp(-e/b) : mul" ++ [nl];
            T "mdefine foo b*e" ++ [nl]]).
  vm_compute. reflexivity.
Defined.

(** X19.  A file without any [mdefine] line cannot fail: the run ends
    normally with the output file closed and the registry untouched. *)
Theorem run_without_definitions (additive : list text) (lines : list text) :
  forallb (fun line => negb (is_mdefine line)) lines = true ->
  let r := convert_mdefine_file additive lines in
  outcome r = Ok tt /\ closed (out r) = true /\ registry r = additive.
Proof.
  intros H r. unfold r, convert_mdefine_file.
  assert (G : forall ls reg o log,
             forallb (fun line => negb (is_mdefine line)) ls = true ->
             snd (convert_lines reg o log ls) = Ok tt
             /\ fst (fst (fst (convert_lines reg o log ls))) = reg).
  { induction ls as [|l ls IH]; intros reg o log Hall;
      cbn [convert_lines]; [split; reflexivity|].
    cbn [forallb] in Hall. apply andb_prop in Hall.
    destruct Hall as [Hl Hls]. unfold is_mdefine in Hl.
    destruct (split_ws l) as [|first rest]; [now apply IH|].
    destruct (text_eqb first (T "#")); [now apply IH|].
    cbn [negb andb] in Hl. apply negb_true_iff in Hl. rewrite Hl.
    now apply IH. }
  destruct (G lines additive (write (Handle [] false) header) [] H)
    as [G1 G2].
  destruct (convert_lines additive _ [] lines) as [[[reg o] log] [[]|e|]];
    cbn [fst snd] in *; try discriminate.
  subst reg. repeat split.
Qed.

Lemma run_without_definitions_witness :
  let r := convert_mdefine_file additive_functions
             [T "# models" ++ [nl]; [nl]; T "model powerlaw" ++ [nl];
              T "#mdefine foo e" ++ [nl]] in
  outcome r = Ok tt /\ closed (out r) = true /\ registry r = additive_functions.
Proof.
  apply (run_without_definitions additive_functions
           [T "# models" ++ [nl]; [nl]; T "model powerlaw" ++ [nl];
            T "#mdefine foo e" ++ [nl]]).
  reflexivity.
Defined.

(** ** Whole words *)

Lemma is_prefix_firstn (n s : text) :
  is_prefix n s = true -> firstn (length n) s = n.
Proof.
  revert s. induction n as [|x n IH]; intros [|y s] H; cbn in *;
    try reflexivity; try discriminate.
  apply andb_prop in H. destruct H as [E H].
  apply Ascii.eqb_eq in E. subst y. now rewrite (IH s H).
Qed.

Lemma hd_error_skipn (s : text) (n : nat) : hd_error (skipn n s) = nth_error s n.
Proof.
  revert n. induction s as [|c r IH]; intros [|n]; cbn; try reflexivity.
  apply IH.
Qed.

Lemma search_from_sound (name s : text) :
  forall prev pos m_start m_end,
    search_from name prev s pos = Some (m_start, m_end) ->
    exists k, m_start = pos + k
      /\ match_here name (match k with 0 => prev | S j => nth_error s j end)
           (skipn k s) = true.
Proof.
  induction s as [|c r IH]; intros prev pos ms me H.
  - cbn [search_from] in H.
    destruct (match_here name prev []) eqn:M; [|discriminate].
    injection H as <- _. exists 0. split; [lia | exact M].
  - change (search_from name prev (c :: r) pos)
      with (if match_here name prev (c :: r) then Some (pos, pos + length name)
            else search_from name (Some c) r (S pos)) in H.
    destruct (match_here name prev (c :: r)) eqn:M.
    + injection H as <- _. exists 0. split; [lia | exact M].
    + destruct (IH _ _ _ _ H) as (k & -> & Hk).
      exists (S k). split; [lia|]. cbn [skipn].
      destruct k as [|j]; exact Hk.
Qed.

(** X20.  What the search of lines 71 and 118 finds is the name as a
    whole word: the matched span holds the name, and neither the
    character before it nor the character after it is a word
    character, so that [min] is not found inside [smin] or [min_x]. *)
Theorem search_word_whole_word (name s : text) (m_start m_end : nat) :
  all_word name = true -> name <> [] ->
  search_word name s = Some (m_start, m_end) ->
  firstn (length name) (skipn m_start s) = name
  /\ m_end = m_start + length name
  /\ wordb (match m_start with 0 => None | S j => nth_error s j end) = false
  /\ wordb (nth_error s m_end) = false.
Proof.
  intros Hw Hn H.
  destruct (search_word_span name s _ _ H) as [Hend _].
  unfold search_word in H. apply search_from_sound in H.
  destruct H as (k & Hk & M). cbn [Nat.add] in Hk. subst k.
  unfold match_here in M.
  apply andb_prop in M. destruct M as [M Hafter].
  apply andb_prop in M. destruct M as [Hpre Hbefore].
  split; [now apply is_prefix_firstn|]. split; [exact Hend|].
  pose proof (is_prefix_firstn _ _ Hpre) as Hf.
  unfold boundary in *. split.
  - destruct (skipn m_start s) as [|c t] eqn:Es.
    + destruct name; [congruence | discriminate].
    + destruct name as [|x n]; [congruence|]. cbn [length firstn] in Hf.
      injection Hf as -> _. cbn [hd_error wordb] in Hbefore.
      unfold all_word in Hw. cbn [forallb] in Hw. apply andb_prop in Hw.
      rewrite (proj1 Hw) in Hbefore. revert Hbefore. clear.
      destruct (wordb _); [cbn; discriminate | reflexivity].
  - rewrite (all_word_last name _ Hw Hn) in Hafter.
    rewrite hd_error_skipn, nth_error_skipn in Hafter.
    rewrite Hend.
    revert Hafter. clear.
    destruct (wordb (nth_error s (m_start + length name)));
      [cbn; discriminate | reflexivity].
Qed.

Lemma search_word_whole_word_witness :
  firstn (length (T "min")) (skipn 19 (T "smin(a) min_x _min min(b)")) = T "min"
  /\ 22 = 19 + length (T "min")
  /\ wordb (nth_error (T "smin(a) min_x _min min(b)") 18) = false
  /\ wordb (nth_error (T "smin(a) min_x _min min(b)") 22) = false.
Proof.
  apply (search_word_whole_word (T "min") (T "smin(a) min_x _min min(b)") 19 22);
    [reflexivity | discriminate | reflexivity].
Defined.

(** ** The type tag *)

Lemma lstrip_spaces (a w : text) :
  forallb is_space a = true ->
  match w with c :: _ => is_space c = false | [] => True end ->
  lstrip (a ++ w) = w.
Proof.
  intros Ha Hw. induction a as [|x a IH]; cbn [app].
  - destruct w as [|c r]; [reflexivity|]. cbn [lstrip]. now rewrite Hw.
  - cbn [forallb] in Ha. apply andb_prop in Ha. destruct Ha as [Hx Ha].
    cbn [lstrip]. rewrite Hx. now apply IH.
Qed.

Lemma strip_padding (a w b : text) :
  forallb is_space a = true -> forallb is_space b = true ->
  match w with c :: _ => is_space c = false | [] => False end ->
  match rev w with c :: _ => is_space c = false | [] => False end ->
  strip (a ++ w ++ b) = w.
Proof.
  intros Ha Hb Hw Hr. unfold strip.
  rewrite (lstrip_spaces a (w ++ b) Ha).
  2:{ destruct w; [contradiction | exact Hw]. }
  rewrite rev_app_distr.
  rewrite (lstrip_spaces (rev b) (rev w)).
  - apply rev_involutive.
  - rewrite forallb_forall in *. intros x Hx. apply Hb. now apply in_rev.
  - destruct (rev w); [contradiction | exact Hr].
Qed.

(** X21.  The model type is what stands after the last colon of the
    line, and whitespace around it does not count: a tag that starts
    and ends with a character that is no whitespace is read back from
    between any blanks, tabs and line terminators, whatever stands
    before the colon. *)
Theorem mtype_ignores_padding (before a w b : text) :
  forallb is_space a = true -> forallb is_space b = true ->
  without ":" w = true ->
  match w with c :: _ => is_space c = false | [] => False end ->
  match rev w with c :: _ => is_space c = false | [] => False end ->
  mtype_of (before ++ T ":" ++ a ++ w ++ b) = w.
Proof.
  intros Ha Hb Hc Hw Hr. unfold mtype_of.
  assert (Htag : without ":" (a ++ w ++ b) = true).
  { rewrite !without_app, Hc.
    assert (G : forall t, forallb is_space t = true -> without ":" t = true).
    { intros t Ht. unfold without. rewrite forallb_forall in *.
      intros x Hx. specialize (Ht x Hx).
      destruct (Ascii.eqb ":" x) eqn:E; [|reflexivity].
      apply Ascii.eqb_eq in E. subst x. discriminate. }
    now rewrite (G a Ha), (G b Hb). }
  change (before ++ T ":" ++ a ++ w ++ b)
    with (before ++ ":"%char :: (a ++ w ++ b)).
  rewrite split_on_app, (split_on_none _ _ Htag).
  rewrite length_app. cbn [length].
  replace (length (split_on ":" before) + 1 =? 1) with false.
  - unfold last_piece. rewrite last_last. now apply strip_padding.
  - symmetry. apply Nat.eqb_neq.
    pose proof (split_by_nonempty (Ascii.eqb ":") before) as Hne.
    unfold split_on. destruct (split_by (Ascii.eqb ":") before);
      [congruence | cbn; lia].
Qed.

Lemma mtype_ignores_padding_witness :
  mtype_of (T "mdefine cut exp(-e/b)" ++ T ":" ++ T "  " ++ T "mul"
            ++ (T " " ++ [nl])) = T "mul".
Proof.
  apply (mtype_ignores_padding (T "mdefine cut exp(-e/b)") (T "  ") (T "mul")
           (T " " ++ [nl])); reflexivity.
Defined.

(** ** A registered additive model called on a later line *)


(** The name of a call is collected. *)






(** The stage, when one name alone is outside the catalogue. *)





